(** * Spotify covert channel: message <-> playlist transcoding

    A shallow embedding of [models.py], [sender.py] and [receiver.py].

    - A Python [str] is a list of Unicode code points ([Z]); [bytes] is a
      list of octets ([Z]).
    - A raised exception is a value of [exn]; pure functions return
      [result], the sender's functions run in the state monad [M] over the
      [world] (cache file, random generator, log of catalog searches).
    - The library functions the sources call ([str.split], [str.strip],
      [str.join], [bytes.fromhex], [bytes.hex], the UTF-8 codec,
      [random.choice]) are modelled next to the code that uses them. *)

From Stdlib Require Import ZArith List Lia Bool Ascii String.
From stdpp Require Import base option list gmap.

Local Open Scope Z_scope.

(** ** Python values *)

Abbreviation str := (list Z) (only parsing).
Abbreviation bytes := (list Z) (only parsing).

(** A literal of the development's own: the code points of an ASCII text. *)
Definition lit (s : string) : str :=
  map (fun a => Z.of_nat (nat_of_ascii a)) (list_ascii_of_string s).

(** [models.py]: [class Song]. *)
Record Song := mkSong { track_id : str; name : str; spotify_url : str }.

(** The exceptions the transcoding functions can raise.  The three
    [Exception(...)] sites of the sources are told apart by their message,
    and carry what the message interpolates. *)
Inductive exn :=
| IndexError
| ValueError
| UnicodeDecodeError
| UnicodeEncodeError
| JSONDecodeError
| ResolutionFailureWord (word : str)
| ResolutionFailureByte (byte : str)
| TruncatedIdentifier (tid : str) (first_index second_index : Z)
| MalformedPayload (hex_string : str).

Inductive result (A : Type) : Type :=
| Ok (a : A)
| Raise (e : exn).
Arguments Ok {A} a.
Arguments Raise {A} e.

#[global] Instance result_ret : MRet result := fun A a => Ok a.
#[global] Instance result_bind : MBind result := fun A B f m =>
  match m with Ok a => f a | Raise e => Raise e end.

Definition is_ok {A} (r : result A) : bool :=
  match r with Ok _ => true | Raise _ => false end.

(** ** Sequences: indexing, [len] *)

Definition len {A} (l : list A) : Z := Z.of_nat (length l).

(** [l[i]] with Python's negative indices. *)
Definition getitem {A} (l : list A) (i : Z) : result A :=
  let k := if i <? 0 then i + len l else i in
  if (k <? 0) || (len l <=? k) then Raise IndexError
  else match l !! Z.to_nat k with
       | Some x => Ok x
       | None => Raise IndexError
       end.

(** ** [str] methods *)

(** [str.isspace] on one character: the whitespace of [str.split()] and
    [str.strip()] without arguments. *)
Definition isspace (c : Z) : bool :=
  ((0x09 <=? c) && (c <=? 0x0D)) || ((0x1C <=? c) && (c <=? 0x20))
  || (c =? 0x85) || (c =? 0xA0) || (c =? 0x1680)
  || ((0x2000 <=? c) && (c <=? 0x200A))
  || (c =? 0x2028) || (c =? 0x2029) || (c =? 0x202F) || (c =? 0x205F)
  || (c =? 0x3000).

(** The seven characters passed to [strip]: full stop, comma, exclamation
    mark, question mark, semicolon, double quote, apostrophe. *)
Definition punctuation : str := [46; 44; 33; 63; 59; 34; 39].

Definition is_punct (c : Z) : bool := existsb (Z.eqb c) punctuation.

Section Strip.
Variable drop : Z -> bool.

Fixpoint lstrip_by (s : str) : str :=
  match s with
  | c :: r => if drop c then lstrip_by r else s
  | [] => []
  end.

Definition rstrip_by (s : str) : str := rev (lstrip_by (rev s)).

Definition strip_by (s : str) : str := rstrip_by (lstrip_by s).
End Strip.

(** [s.strip(punctuation)] and [s.strip()]. *)
Definition strip_punct : str -> str := strip_by is_punct.
Definition strip_ws : str -> str := strip_by isspace.

(** [s.split()]: the maximal runs of non-whitespace, left to right.
    [tok] is the run being read. *)
Fixpoint split_go (tok : str) (s : str) : list str :=
  match s with
  | [] => match tok with [] => [] | _ => [tok] end
  | c :: r =>
      if isspace c
      then match tok with [] => split_go [] r | _ => tok :: split_go [] r end
      else split_go (tok ++ [c]) r
  end.

Definition split (s : str) : list str := split_go [] s.

(** [sep.join(words)]. *)
Fixpoint join (sep : str) (words : list str) : str :=
  match words with
  | [] => []
  | [w] => w
  | w :: rest => w ++ sep ++ join sep rest
  end.

Definition space : str := [32].

(** ** [receiver.py]: First-Word decoding *)

(** The body of the [for] loop of [decode_first_word_encoding]: [words] is
    the list built so far. *)
Definition decode_first_word_step (words : list str) (song : Song)
  : result (list str) :=
  match name song with
  | [] => Ok words                                  (* if not song.name: continue *)
  | _ =>
      tok ← getitem (split (name song)) 0;
      let first_word := strip_punct tok in
      match first_word with
      | [] => Ok words
      | _ => Ok (words ++ [first_word])
      end
  end.

Fixpoint decode_first_word_loop (songs : list Song) (words : list str)
  : result (list str) :=
  match songs with
  | [] => Ok words
  | song :: rest =>
      words' ← decode_first_word_step words song;
      decode_first_word_loop rest words'
  end.

Definition decode_first_word_encoding (songs : list Song) : result str :=
  words ← decode_first_word_loop songs [];
  Ok (join space words).


(** ** [bytes]: hexadecimal text and the UTF-8 codec *)

(** [Py_ISSPACE]: the ASCII whitespace [bytes.fromhex] skips. *)
Definition Py_ISSPACE (c : Z) : bool :=
  ((0x09 <=? c) && (c <=? 0x0D)) || (c =? 0x20).

(** The value of a hexadecimal digit, either case. *)
Definition hexval (c : Z) : option Z :=
  if (48 <=? c) && (c <=? 57) then Some (c - 48)
  else if (97 <=? c) && (c <=? 102) then Some (c - 87)
  else if (65 <=? c) && (c <=? 70) then Some (c - 55)
  else None.

(** The scan of [bytes.fromhex]: whitespace is skipped before a byte, then
    two hexadecimal digits are read; anything else ends the scan in error. *)
Fixpoint fromhex_scan (s : str) : option bytes :=
  match s with
  | [] => Some []
  | c :: r =>
      if Py_ISSPACE c then fromhex_scan r
      else match r with
           | d :: r' =>
               match hexval c, hexval d with
               | Some top, Some bot => cons (top * 16 + bot) <$> fromhex_scan r'
               | _, _ => None
               end
           | [] => None
           end
  end.

(** [bytes.fromhex(s)]. *)
Definition fromhex (s : str) : result bytes :=
  match fromhex_scan s with
  | Some b => Ok b
  | None => Raise ValueError
  end.

(** The lower-case digit [bytes.hex] writes for a nibble. *)
Definition hexdigit (n : Z) : Z := if n <? 10 then 48 + n else 87 + n.

(** [b.hex()]. *)
Definition hex (b : bytes) : str :=
  flat_map (fun x => [hexdigit (x / 16); hexdigit (x mod 16)]) b.

(** A Unicode scalar value: a code point that is not a surrogate. *)
Definition is_scalar (c : Z) : bool :=
  ((0 <=? c) && (c <? 0xD800)) || ((0xE000 <=? c) && (c <=? 0x10FFFF)).

Definition utf8_encode_char (c : Z) : result bytes :=
  if negb (is_scalar c) then Raise UnicodeEncodeError
  else if c <? 0x80 then Ok [c]
  else if c <? 0x800 then Ok [0xC0 + c / 64; 0x80 + c mod 64]
  else if c <? 0x10000 then
    Ok [0xE0 + c / 4096; 0x80 + (c / 64) mod 64; 0x80 + c mod 64]
  else
    Ok [0xF0 + c / 262144; 0x80 + (c / 4096) mod 64;
        0x80 + (c / 64) mod 64; 0x80 + c mod 64].

(** [s.encode("utf-8")]. *)
Fixpoint utf8_encode (s : str) : result bytes :=
  match s with
  | [] => Ok []
  | c :: r =>
      b ← utf8_encode_char c;
      bs ← utf8_encode r;
      Ok (b ++ bs)
  end.

Definition is_cont (b : Z) : bool := (0x80 <=? b) && (b <=? 0xBF).

(** The range of the second byte of a three- and of a four-byte sequence:
    it excludes overlong forms, surrogates and values above U+10FFFF. *)
Definition second_ok3 (b0 b1 : Z) : bool :=
  if b0 =? 0xE0 then (0xA0 <=? b1) && (b1 <=? 0xBF)
  else if b0 =? 0xED then (0x80 <=? b1) && (b1 <=? 0x9F)
  else is_cont b1.

Definition second_ok4 (b0 b1 : Z) : bool :=
  if b0 =? 0xF0 then (0x90 <=? b1) && (b1 <=? 0xBF)
  else if b0 =? 0xF4 then (0x80 <=? b1) && (b1 <=? 0x8F)
  else is_cont b1.

(** The strict UTF-8 decoder. *)
Fixpoint utf8_decode_scan (b : bytes) : option str :=
  match b with
  | [] => Some []
  | b0 :: r0 =>
      if b0 <? 0x80 then cons b0 <$> utf8_decode_scan r0
      else if b0 <? 0xC2 then None
      else if b0 <? 0xE0 then
        match r0 with
        | b1 :: r1 =>
            if is_cont b1
            then cons ((b0 - 0xC0) * 64 + (b1 - 0x80)) <$> utf8_decode_scan r1
            else None
        | _ => None
        end
      else if b0 <? 0xF0 then
        match r0 with
        | b1 :: b2 :: r2 =>
            if second_ok3 b0 b1 && is_cont b2
            then cons ((b0 - 0xE0) * 4096 + (b1 - 0x80) * 64 + (b2 - 0x80))
                   <$> utf8_decode_scan r2
            else None
        | _ => None
        end
      else if b0 <? 0xF5 then
        match r0 with
        | b1 :: b2 :: b3 :: r3 =>
            if second_ok4 b0 b1 && is_cont b2 && is_cont b3
            then cons ((b0 - 0xF0) * 262144 + (b1 - 0x80) * 4096
                       + (b2 - 0x80) * 64 + (b3 - 0x80))
                   <$> utf8_decode_scan r3
            else None
        | _ => None
        end
      else None
  end.

(** [b.decode("utf-8")]; [UnicodeDecodeError] is a [ValueError]. *)
Definition utf8_decode (b : bytes) : result str :=
  match utf8_decode_scan b with
  | Some s => Ok s
  | None => Raise UnicodeDecodeError
  end.

(** [try: body except ValueError: handler]; the Unicode errors and
    [json.JSONDecodeError] are [ValueError]s. *)
Definition try_except_ValueError {A} (body : result A) (handler : result A)
  : result A :=
  match body with
  | Raise ValueError | Raise UnicodeDecodeError
  | Raise UnicodeEncodeError | Raise JSONDecodeError => handler
  | r => r
  end.

(** ** [receiver.py]: Hex decoding *)

(** The body of the [for] loop of [decode_hex_encoding]. *)
Definition decode_hex_step (first_index second_index : Z)
    (hex_bytes : list str) (song : Song) : result (list str) :=
  let tid := track_id song in
  if len tid <=? Z.max first_index second_index
  then Raise (TruncatedIdentifier tid first_index second_index)
  else
    a ← getitem tid first_index;
    b ← getitem tid second_index;
    Ok (hex_bytes ++ [[a; b]]).

Fixpoint decode_hex_loop (first_index second_index : Z)
    (songs : list Song) (hex_bytes : list str) : result (list str) :=
  match songs with
  | [] => Ok hex_bytes
  | song :: rest =>
      hex_bytes' ← decode_hex_step first_index second_index hex_bytes song;
      decode_hex_loop first_index second_index rest hex_bytes'
  end.

Definition decode_hex_encoding (songs : list Song)
    (first_index second_index : Z) : result str :=
  hex_bytes ← decode_hex_loop first_index second_index songs [];
  let hex_string := join [] hex_bytes in
  try_except_ValueError
    (decoded_bytes ← fromhex hex_string; utf8_decode decoded_bytes)
    (Raise (MalformedPayload hex_string)).

(** ** [sender.py]: the world the sender runs in *)

(** A record of [dataset.csv], as [csv.DictReader] yields it. *)
Record Row := mkRow { row_track_id : str; row_track_name : str }.

(** What the sender reads and writes besides its arguments: the cache file
    ([None]: absent or empty), whether that file holds instead the cut-off
    text a failed save left behind, how many numbers the random generator
    has produced, and the queries sent to the catalog search, oldest
    first. *)
Record world := mkWorld {
  cache_file : option (gmap str (list Song));
  cache_cut : bool;
  rand_pos : nat;
  search_log : list str
}.

Definition M (A : Type) : Type := world -> world * result A.

#[global] Instance M_ret : MRet M := fun A a w => (w, Ok a).
#[global] Instance M_bind : MBind M := fun A B f m w =>
  match m w with
  | (w', Ok a) => f a w'
  | (w', Raise e) => (w', Raise e)
  end.

Definition raise {A} (e : exn) : M A := fun w => (w, Raise e).
Definition lift {A} (r : result A) : M A := fun w => (w, r).

(** A list comprehension [[x for x in l if p(x)]] whose condition can raise. *)
Fixpoint filter_result {A} (p : A -> result bool) (l : list A)
  : result (list A) :=
  match l with
  | [] => Ok []
  | x :: r =>
      b ← p x;
      r' ← filter_result p r;
      Ok (if b : bool then x :: r' else r')
  end.

(** [[s[i:i+2] for i in range(0, len(s), 2)]]. *)
Fixpoint chunks2 (s : str) : list str :=
  match s with
  | [] => []
  | [a] => [[a]]
  | a :: b :: r => [a; b] :: chunks2 r
  end.

Definition track_url_prefix : str := lit "https://open.spotify.com/track/".

(** A string that can be written to a UTF-8 file: it holds no lone
    surrogate. *)
Definition encodable (s : str) : bool := forallb is_scalar s.

Definition song_encodable (s : Song) : bool :=
  encodable (track_id s) && encodable (name s) && encodable (spotify_url s).

(** Every key and every string of every record of the cache can be
    written. *)
Definition cache_encodable (cache : gmap str (list Song)) : bool :=
  forallb (fun entry => encodable (fst entry) && forallb song_encodable (snd entry))
    (map_to_list cache).

Section Sender.
(** The collaborators: the raw numbers of the random generator, the
    catalog search (its answer may depend on how many searches came
    before), [str.lower], and the records of [dataset.csv]. *)
Variable draws : nat -> nat.
Variable sp_search : nat -> str -> option (list Song).
Variable lower : str -> str.
Variable dataset : list Row.

(** [random.choice(seq)]. *)
Definition random_choice {A} (seq : list A) : M A := fun w =>
  let k := (draws (rand_pos w) mod length seq)%nat in
  (mkWorld (cache_file w) (cache_cut w) (S (rand_pos w)) (search_log w),
   match seq !! k with
   | Some x => Ok x
   | None => Raise IndexError
   end).

(** [load_song_cache()]: an absent or empty file is the empty cache; a
    cut-off text makes [json.load] raise. *)
Definition load_song_cache : M (gmap str (list Song)) := fun w =>
  if cache_cut w then (w, Raise JSONDecodeError)
  else (w, Ok (default ∅ (cache_file w))).

(** [save_song_cache(cache)]: [open(path, "w")] empties the file and
    [json.dump(..., ensure_ascii=False)] writes the text piece by piece,
    the opening brace first; a string with a lone surrogate stops it with
    [UnicodeEncodeError], and the file is left with the text cut off. *)
Definition save_song_cache (cache : gmap str (list Song)) : M unit :=
  fun w =>
    if cache_encodable cache
    then (mkWorld (Some cache) false (rand_pos w) (search_log w), Ok tt)
    else (mkWorld None true (rand_pos w) (search_log w),
          Raise UnicodeEncodeError).

(** [sp.search(q=..., type='track', limit=10)]: [None] is a falsy answer,
    [Some items] the list under ['tracks']['items']. *)
Definition search (q : str) : M (option (list Song)) := fun w =>
  (mkWorld (cache_file w) (cache_cut w) (rand_pos w) (search_log w ++ [q]),
   Ok (sp_search (length (search_log w)) q)).

(** [word.strip(punctuation).split()[0]]: the key of a word. *)
Definition normalize (word : str) : result str :=
  getitem (split (strip_punct word)) 0.

(** The condition of the comprehension over the search results. *)
Definition leading_word_matches (word : str) (item : Song) : result bool :=
  tok ← getitem (split (name item)) 0;
  Ok (bool_decide (lower (strip_punct tok) = lower word)).

Definition quoted (word : str) : str := [34] ++ word ++ [34].

Definition get_song_from_first_word (word : str) : M (option Song) :=
  word ← lift (normalize word);
  cache ← load_song_cache;
  match cache !! word with
  | Some ((_ :: _) as cached) =>
      song ← random_choice cached;
      mret (Some song)
  | _ =>
      results ← search (quoted word);
      match results with
      | Some items =>
          songs ← lift (filter_result (leading_word_matches word) items);
          match songs with
          | [] => mret None
          | _ =>
              _ ← save_song_cache (<[word := songs]> cache);
              song ← random_choice songs;
              mret (Some song)
          end
      | None => mret None
      end
  end.

(** The [for] loop of [get_first_word_encoding_songs]. *)
Fixpoint first_word_loop (words : list str) (songs : list Song)
  : M (list Song) :=
  match words with
  | [] => mret songs
  | word :: rest =>
      song ← get_song_from_first_word (strip_ws word);
      match song with
      | Some s => first_word_loop rest (songs ++ [s])
      | None => raise (ResolutionFailureWord word)
      end
  end.

Definition get_first_word_encoding_songs (message : str) : M (list Song) :=
  first_word_loop (split message) [].

(** The condition of the comprehension over the dataset: [and] evaluates
    its right operand only when the left one holds. *)
Definition row_matches (first_index second_index : Z) (byte : str)
    (row : Row) : result bool :=
  a ← getitem (row_track_id row) first_index;
  b0 ← getitem byte 0;
  if a =? b0 then
    b ← getitem (row_track_id row) second_index;
    b1 ← getitem byte 1;
    Ok (b =? b1)
  else Ok false.

(** The [for] loop of [get_hex_encoding_songs]. *)
Fixpoint hex_loop (first_index second_index : Z) (byte_list : list str)
    (songs : list Song) : M (list Song) :=
  match byte_list with
  | [] => mret songs
  | byte :: rest =>
      matched_songs ←
        lift (filter_result (row_matches first_index second_index byte)
                dataset);
      match matched_songs with
      | [] => raise (ResolutionFailureByte byte)
      | _ =>
          song_data ← random_choice matched_songs;
          let song :=
            mkSong (row_track_id song_data) (row_track_name song_data)
              (track_url_prefix ++ row_track_id song_data) in
          hex_loop first_index second_index rest (songs ++ [song])
      end
  end.

Definition get_hex_encoding_songs (message : str)
    (first_index second_index : Z) : M (list Song) :=
  encoded ← lift (utf8_encode message);
  let hex_message := hex encoded in
  hex_loop first_index second_index (chunks2 hex_message) [].

End Sender.

(** ** The Hex decoding as the specification words it

    For each song, in list order, the two characters of its identifier at
    the two indices form a hexadecimal byte; the message is the UTF-8
    decoding of these bytes, one per song. *)

Definition song_pair (i j : nat) (song : Song) : option str :=
  a ← track_id song !! i;
  b ← track_id song !! j;
  Some [a; b].

Definition parse_hex_byte (p : str) : option Z :=
  match p with
  | [a; b] => top ← hexval a; bot ← hexval b; Some (top * 16 + bot)
  | _ => None
  end.

Definition song_hex_byte (i j : nat) (song : Song) : option Z :=
  song_pair i j song ≫= parse_hex_byte.

Definition spec_hex_decode (songs : list Song) (i j : nat) : option str :=
  mapM (song_hex_byte i j) songs ≫= utf8_decode_scan.

Definition to_option {A} (r : result A) : option A :=
  match r with Ok a => Some a | Raise _ => None end.

(** No identifier has ASCII whitespace at index [i]. *)
Definition no_space_at (i : nat) (songs : list Song) : bool :=
  forallb (fun s => match track_id s !! i with
                    | Some c => negb (Py_ISSPACE c)
                    | None => true
                    end) songs.

(** The dataset scan of [get_hex_encoding_songs] finds a record for
    [byte]: the comprehension completes and its result is not empty. *)
Definition scan_finds (dataset : list Row) (i j : Z) (byte : str) : Prop :=
  exists row rows,
    filter_result (row_matches i j byte) dataset = Ok (row :: rows).

(** ** Words and octets *)

Definition no_space (t : str) : bool := forallb (fun c => negb (isspace c)) t.
Definition no_punct (t : str) : bool := forallb (fun c => negb (is_punct c)) t.

(** A token: what [split] returns. *)
Definition is_token (t : str) : Prop := t <> [] /\ no_space t = true.

(** No punctuation at either end: what [strip(punctuation)] returns as
    it is, whatever stands between the ends. *)
Definition bare (t : str) : bool :=
  match t with [] => true | c :: _ => negb (is_punct c) end
  && match rev t with [] => true | d :: _ => negb (is_punct d) end.

Ltac zcmp :=
  repeat match goal with
    | H : (_ <? _) = true |- _ => apply Z.ltb_lt in H
    | H : (_ <? _) = false |- _ => apply Z.ltb_ge in H
    | H : (_ <=? _) = true |- _ => apply Z.leb_le in H
    | H : (_ <=? _) = false |- _ => apply Z.leb_gt in H
    | H : (_ =? _) = true |- _ => apply Z.eqb_eq in H
    | H : (_ =? _) = false |- _ => apply Z.eqb_neq in H
    | H : (_ && _) = true |- _ => apply andb_true_iff in H as [? ?]
    | H : (_ || _) = true |- _ => apply orb_true_iff in H
    | H : negb _ = false |- _ => apply negb_false_iff in H
    | H : negb _ = true |- _ => apply negb_true_iff in H
    end.

Ltac zsolve := Z.div_mod_to_equations; lia.

(** Decide a comparison of the goal from the arithmetic of the context, or
    split on it. *)
Ltac decide_cmp t :=
  first
    [ replace t with true
        by (symmetry; first [apply Z.ltb_lt | apply Z.leb_le | apply Z.eqb_eq];
            zsolve)
    | replace t with false
        by (symmetry; first [apply Z.ltb_ge | apply Z.leb_gt | apply Z.eqb_neq];
            zsolve)
    | let H := fresh "Hc" in destruct t eqn:H; zcmp ].

Ltac decide_cmps :=
  repeat (match goal with
          | |- context [?x <? ?y] => decide_cmp (x <? y)
          | |- context [?x <=? ?y] => decide_cmp (x <=? y)
          | |- context [?x =? ?y] => decide_cmp (x =? y)
          end; cbn [andb orb negb]).

Definition is_byte (b : Z) : Prop := 0 <= b < 256.

(** ** Concrete collaborators for the examples *)

(** [str.lower] on ASCII text. *)
Definition ascii_lower (s : str) : str :=
  map (fun c => if (65 <=? c) && (c <=? 90) then c + 32 else c) s.

(** A fresh start: no cache file, no draw made, no search sent. *)
Definition fresh_world : world := mkWorld None false 0 [].

Definition example_draws (n : nat) : nat := n.

Definition go_get_it : Song :=
  mkSong (lit "3n3Ppam7vgaVa1iaRUc9Lp") (lit "Go Get It") (lit "https://open.spotify.com/track/3n3Ppam7vgaVa1iaRUc9Lp").

Definition now_or_never : Song :=
  mkSong (lit "0VjIjW4GlUZAMYd2vXMi3b") (lit "Now or Never") (lit "https://open.spotify.com/track/0VjIjW4GlUZAMYd2vXMi3b").

(** A catalog that knows two tracks and answers every query with both. *)
Definition example_search (n : nat) (q : str) : option (list Song) :=
  Some [go_get_it; now_or_never].

(** Two tracks whose names open with a punctuated word. *)
Definition go_comma_get_it : Song :=
  mkSong (lit "3n3Ppam7vgaVa1iaRUc9Lp") (lit "Go, Get It") (lit "https://open.spotify.com/track/3n3Ppam7vgaVa1iaRUc9Lp").

Definition now_in_quotes : Song :=
  mkSong (lit "0VjIjW4GlUZAMYd2vXMi3b") (lit "'Now' or Never") (lit "https://open.spotify.com/track/0VjIjW4GlUZAMYd2vXMi3b").

Definition punctuated_search (n : nat) (q : str) : option (list Song) :=
  Some [go_comma_get_it; now_in_quotes].

(** Two records whose identifiers carry [4], [8] and [6], [9] at the
    indices 5 and 8. *)
Definition example_dataset : list Row :=
  [mkRow (lit "7ouMY4bw8tZ9SuDNjTR1Ec") (lit "First");
   mkRow (lit "2takc6hn9CZZcC0aJ3bXXp") (lit "Second")].

Definition hi_playlist : list Song :=
  [mkSong (lit "7ouMY4bw8tZ9SuDNjTR1Ec") (lit "First") [];
   mkSong (lit "2takc6hn9CZZcC0aJ3bXXp") (lit "Second") []].

(** ** Runs of the resolver *)

Section ResolverRun.
Variable draws : nat -> nat.
Variable sp_search : nat -> str -> option (list Song).
Variable lower : str -> str.

(** [resolver_run w words songs w']: called for each of [words] in turn,
    as the First-Word encoding calls it, starting in the world [w], the
    resolver returns the songs [songs] and leaves the world [w']. *)
Inductive resolver_run : world -> list str -> list Song -> world -> Prop :=
| resolver_run_nil (w : world) : resolver_run w [] [] w
| resolver_run_cons (w w1 w2 : world) (word : str) (words : list str)
    (song : Song) (songs : list Song) :
    get_song_from_first_word draws sp_search lower (strip_ws word) w
    = (w1, Ok (Some song)) ->
    resolver_run w1 words songs w2 ->
    resolver_run w (word :: words) (song :: songs) w2.
End ResolverRun.

(** ** The outcomes of one resolution *)

(** The cache a world holds: what [load_song_cache] returns in it, and
    nothing when the file cannot be read. *)
Definition cache_of (w : world) : gmap str (list Song) :=
  if cache_cut w then ∅ else default ∅ (cache_file w).

(** The cache is read and [cache.get(key)] is falsy: no entry, or an
    empty one. *)
Definition cache_miss (w : world) (key : str) : Prop :=
  cache_cut w = false /\
  (cache_of w !! key = None \/ cache_of w !! key = Some []).

Definition drawn (w : world) : world :=
  mkWorld (cache_file w) (cache_cut w) (S (rand_pos w)) (search_log w).

Definition logged (w : world) (q : str) : world :=
  mkWorld (cache_file w) (cache_cut w) (rand_pos w) (search_log w ++ [q]).

Section ResolverOutcomes.
Variable sp_search : nat -> str -> option (list Song).
Variable lower : str -> str.

(** [resolved word w w' r]: the ways [get_song_from_first_word word] can
    go in the world [w], with the world it leaves and what it returns or
    raises. *)
Inductive resolved (word : str) (w : world)
  : world -> result (option Song) -> Prop :=
| resolved_no_key (e : exn) :
    normalize word = Raise e ->
    resolved word w w (Raise e)
| resolved_unreadable (key : str) :
    normalize word = Ok key ->
    cache_cut w = true ->
    resolved word w w (Raise JSONDecodeError)
| resolved_hit (key : str) (c : Song) (cs : list Song) (s : Song) :
    normalize word = Ok key ->
    cache_of w !! key = Some (c :: cs) ->
    In s (c :: cs) ->
    resolved word w (drawn w) (Ok (Some s))
| resolved_falsy (key : str) :
    normalize word = Ok key ->
    cache_miss w key ->
    sp_search (length (search_log w)) (quoted key) = None ->
    resolved word w (logged w (quoted key)) (Ok None)
| resolved_filter_error (key : str) (items : list Song) (e : exn) :
    normalize word = Ok key ->
    cache_miss w key ->
    sp_search (length (search_log w)) (quoted key) = Some items ->
    filter_result (leading_word_matches lower key) items = Raise e ->
    resolved word w (logged w (quoted key)) (Raise e)
| resolved_no_match (key : str) (items : list Song) :
    normalize word = Ok key ->
    cache_miss w key ->
    sp_search (length (search_log w)) (quoted key) = Some items ->
    filter_result (leading_word_matches lower key) items = Ok [] ->
    resolved word w (logged w (quoted key)) (Ok None)
| resolved_found (key : str) (items : list Song) (c : Song) (cs : list Song)
    (s : Song) :
    normalize word = Ok key ->
    cache_miss w key ->
    sp_search (length (search_log w)) (quoted key) = Some items ->
    filter_result (leading_word_matches lower key) items = Ok (c :: cs) ->
    cache_encodable (<[key := c :: cs]> (cache_of w)) = true ->
    In s (c :: cs) ->
    resolved word w
      (mkWorld (Some (<[key := c :: cs]> (cache_of w))) false (S (rand_pos w))
         (search_log w ++ [quoted key]))
      (Ok (Some s))
| resolved_save_failed (key : str) (items : list Song) (c : Song)
    (cs : list Song) :
    normalize word = Ok key ->
    cache_miss w key ->
    sp_search (length (search_log w)) (quoted key) = Some items ->
    filter_result (leading_word_matches lower key) items = Ok (c :: cs) ->
    cache_encodable (<[key := c :: cs]> (cache_of w)) = false ->
    resolved word w
      (mkWorld None true (rand_pos w) (search_log w ++ [quoted key]))
      (Raise UnicodeEncodeError).

(** A song stored under [key] belongs there: the leading word of its
    name, stripped of punctuation, is the key up to letter case. *)
Definition matches_key (key : str) (song : Song) : Prop :=
  exists tok,
    getitem (split (name song)) 0 = Ok tok /\
    lower (strip_punct tok) = lower key.

(** Every entry of the cache holds only songs that belong under its key. *)
Definition cache_wf (cache : gmap str (list Song)) : Prop :=
  forall key songs, cache !! key = Some songs -> Forall (matches_key key) songs.
End ResolverOutcomes.

(** A song built from a record of the dataset, as the Hex loop builds it. *)
Definition from_dataset (dataset : list Row) (s : Song) : Prop :=
  exists row, In row dataset /\
    s = mkSong (row_track_id row) (row_track_name row)
          (track_url_prefix ++ row_track_id row).

(** The record [row] carries the characters [a] and [b] at the indices
    [i] and [j] of its identifier. *)
Definition row_has (i j : nat) (a b : Z) (row : Row) : bool :=
  match row_track_id row !! i, row_track_id row !! j with
  | Some x, Some y => (x =? a) && (y =? b)
  | _, _ => false
  end.

(** The two hexadecimal digits of an octet, as [bytes.hex] writes them. *)
Definition hex_pair (x : Z) : str := [hexdigit (x / 16); hexdigit (x mod 16)].

(** The dataset has a record for the octet [x] at the indices [i], [j]. *)
Definition has_record (dataset : list Row) (i j : nat) (x : Z) : bool :=
  existsb (row_has i j (hexdigit (x / 16)) (hexdigit (x mod 16))) dataset.

(** ** [str.split(sep)] and [str.startswith] *)

(** [s.split(sep)] for a separator of one character: the pieces between
    the separators, empty ones included; never the empty list. *)
Fixpoint split_sep_go (sep : Z) (cur s : str) : list str :=
  match s with
  | [] => [cur]
  | c :: r =>
      if c =? sep then cur :: split_sep_go sep [] r
      else split_sep_go sep (cur ++ [c]) r
  end.

Definition split_sep (sep : Z) (s : str) : list str := split_sep_go sep [] s.

(** [s.startswith(prefix)]. *)
Fixpoint startswith (s prefix : str) : bool :=
  match prefix, s with
  | [], _ => true
  | p :: prefix', c :: s' => (c =? p) && startswith s' prefix'
  | _ :: _, [] => false
  end.

(** No character of [s] is [sep]. *)
Definition free_of (sep : Z) (s : str) : bool :=
  forallb (fun c => negb (c =? sep)) s.

Definition slash : Z := 47.
Definition question_mark : Z := 63.

(** [playlist_url.split("/")[-1].split("?")[0]]. *)
Definition playlist_id_of (playlist_url : str) : result str :=
  last_part ← getitem (split_sep slash playlist_url) (-1);
  getitem (split_sep question_mark last_part) 0.

(** ** [receiver.py]: reading the playlist *)

(** What the playlist collaborator answers: a track's fields may be
    absent or null, an item may have no track, a page may name a next
    page. *)
Record Track := mkTrack {
  t_id : option str;
  t_name : option str;
  t_external_urls : option (gmap str str)
}.

Record Item := mkItem { item_track : option Track }.

Record Page := mkPage { page_items : list Item; page_next : option str }.

(** Truth value of a string that may be [None]. *)
Definition truthy (o : option str) : bool :=
  match o with
  | Some (_ :: _) => true
  | _ => false
  end.

(** The [for] loop over the items of one page. *)
Fixpoint items_loop (items : list Item) (songs : list Song) : list Song :=
  match items with
  | [] => songs
  | item :: rest =>
      match item_track item with
      | None => items_loop rest songs
      | Some track =>
          let external_urls := default ∅ (t_external_urls track) in
          let spotify_url := default [] (external_urls !! lit "spotify") in
          if truthy (t_id track) && truthy (t_name track)
          then items_loop rest
                 (songs ++ [mkSong (default [] (t_id track))
                              (default [] (t_name track)) spotify_url])
          else items_loop rest songs
      end
  end.

(** The [while results:] loop.  The collaborator serves the pages of
    [pages] in order: the first as the answer of [sp.playlist_items],
    each following one as the answer of [sp.next], then [None]. *)
Fixpoint pages_loop (pages : list Page) (songs : list Song) : list Song :=
  match pages with
  | [] => songs
  | results :: later =>
      let songs' := items_loop (page_items results) songs in
      if truthy (page_next results) then pages_loop later songs' else songs'
  end.

Definition get_songs_from_playlist (sp_playlist : str -> list Page)
    (playlist_url : str) : result (list Song) :=
  playlist_id ← playlist_id_of playlist_url;
  Ok (pages_loop (sp_playlist playlist_id) []).

(** The song an item gives, if any, and the pages the loop reads: up to
    and including the first one that names no next page. *)
Definition song_of_item (item : Item) : option Song :=
  track ← item_track item;
  match t_id track, t_name track with
  | Some (c :: tid), Some (n :: nm) =>
      Some (mkSong (c :: tid) (n :: nm)
              (default [] (default ∅ (t_external_urls track) !! lit "spotify")))
  | _, _ => None
  end.

Fixpoint pages_read (pages : list Page) : list Page :=
  match pages with
  | [] => []
  | p :: later => p :: (if truthy (page_next p) then pages_read later else [])
  end.

(** ** The prompts *)

(** A prompt reads lines of standard input until one is accepted: it
    returns a value and the lines left, or stops on the end of the input
    ([input] raises [EOFError]) or on an integer literal [int] refuses. *)
Inductive console (A : Type) : Type :=
| Entered (a : A) (rest : list str)
| EOFError
| IntValueError.
Arguments Entered {A} a rest.
Arguments EOFError {A}.
Arguments IntValueError {A}.

Definition default_playlist_url : str :=
  lit "https://open.spotify.com/playlist/1qowu2b1APBPmn1kR8Ffju?si=ae2dab6cbc1b4fda".

Definition playlist_url_prefix : str := lit "https://open.spotify.com/playlist/".

(** [get_playlist_url()], the same in both programs. *)
Fixpoint get_playlist_url (stdin : list str) : console str :=
  match stdin with
  | [] => EOFError
  | line :: rest =>
      let playlist_url := strip_ws line in
      match playlist_url with
      | [] => Entered default_playlist_url rest
      | _ =>
          if startswith playlist_url playlist_url_prefix
          then Entered playlist_url rest
          else get_playlist_url rest
      end
  end.

(** [get_message()]. *)
Fixpoint get_message (stdin : list str) : console str :=
  match stdin with
  | [] => EOFError
  | message :: rest =>
      match strip_ws message with
      | [] => get_message rest
      | _ => Entered message rest
      end
  end.

(** [get_encoding_method()], the same in both programs up to the text of
    the prompt. *)
Fixpoint get_encoding_method (stdin : list str) : console str :=
  match stdin with
  | [] => EOFError
  | line :: rest =>
      let encoding := strip_ws line in
      if bool_decide (encoding = lit "1") || bool_decide (encoding = lit "2")
      then Entered encoding rest
      else get_encoding_method rest
  end.

Section Prompts.
(** [str.isdigit] and [int] on a string of digits ([None]: [ValueError]),
    which depend on the Unicode character tables. *)
Variable isdigit : str -> bool.
Variable int : str -> option Z.

(** The loop of [get_first_index] and [get_second_index], which differ in
    the value returned for an empty line. *)
Fixpoint get_index (default_index : Z) (stdin : list str) : console Z :=
  match stdin with
  | [] => EOFError
  | index :: rest =>
      match index with
      | [] => Entered default_index rest
      | _ =>
          if isdigit index then
            match int index with
            | Some n =>
                if (0 <=? n) && (n <=? 21) then Entered n rest
                else get_index default_index rest
            | None => IntValueError
            end
          else get_index default_index rest
      end
  end.

Definition get_first_index : list str -> console Z := get_index 5.
Definition get_second_index : list str -> console Z := get_index 8.
End Prompts.


(** ** Concrete collaborators for the examples of the programs *)

(** [str.isdigit] and [int] on ASCII text. *)
Definition ascii_isdigit (s : str) : bool :=
  match s with
  | [] => false
  | _ => forallb (fun c => (48 <=? c) && (c <=? 57)) s
  end.

Definition ascii_int (s : str) : option Z :=
  Some (fold_left (fun acc c => acc * 10 + (c - 48)) s 0).




(** A cache that holds [Go Get It] under the key [Go]. *)
Definition example_cache_world : world :=
  mkWorld (Some (<[lit "Go" := [go_get_it]]> ∅)) false 0 [].

(** ** The two programs *)

(** How a program ends: it finishes, an exception of the transcoding
    stops it, a prompt stops it, or the receiver reaches its
    [raise Exception("Unknown encoding method.")]. *)
Inductive outcome (A : Type) : Type :=
| Finished (a : A)
| Raised (e : exn)
| EndOfInput
| BadInteger
| UnknownEncodingMethod.
Arguments Finished {A} a.
Arguments Raised {A} e.
Arguments EndOfInput {A}.
Arguments BadInteger {A}.
Arguments UnknownEncodingMethod {A}.

Definition stopped {A B} (c : console A) : outcome B :=
  match c with
  | IntValueError => BadInteger
  | _ => EndOfInput
  end.

Section Programs.
Variable draws : nat -> nat.
Variable sp_search : nat -> str -> option (list Song).
Variable lower : str -> str.
Variable dataset : list Row.
Variable sp_playlist : str -> list Page.
Variable isdigit : str -> bool.
Variable int : str -> option Z.

(** The main block of [receiver.py], after authentication.  [Finished
    None] is the exit on an empty playlist, [Finished (Some message)] the
    message printed. *)
Definition receiver_main (stdin : list str) : outcome (option str) :=
  match get_playlist_url stdin with
  | Entered playlist_url stdin1 =>
      match get_encoding_method stdin1 with
      | Entered encoding stdin2 =>
          match get_songs_from_playlist sp_playlist playlist_url with
          | Raise e => Raised e
          | Ok [] => Finished None
          | Ok songs =>
              if bool_decide (encoding = lit "1") then
                match decode_first_word_encoding songs with
                | Ok message => Finished (Some message)
                | Raise e => Raised e
                end
              else if bool_decide (encoding = lit "2") then
                match get_first_index isdigit int stdin2 with
                | Entered first_index stdin3 =>
                    match get_second_index isdigit int stdin3 with
                    | Entered second_index _ =>
                        match decode_hex_encoding songs first_index second_index with
                        | Ok message => Finished (Some message)
                        | Raise e => Raised e
                        end
                    | c => stopped c
                    end
                | c => stopped c
                end
              else UnknownEncodingMethod
          end
      | c => stopped c
      end
  | c => stopped c
  end.

(** The main block of [sender.py], after authentication.  [Finished (Some
    (playlist_id, ids))] stands for the two calls that end it,
    [playlist_replace_items(playlist_id, [])] and
    [playlist_add_items(playlist_id, ids)]; [Finished None] for the end
    without them, when [songs] is empty. *)
Definition sender_main (stdin : list str) (w : world)
  : world * outcome (option (str * list str)) :=
  match get_playlist_url stdin with
  | Entered playlist_url stdin1 =>
      match playlist_id_of playlist_url with
      | Raise e => (w, Raised e)
      | Ok playlist_id =>
          match get_message stdin1 with
          | Entered message stdin2 =>
              match get_encoding_method stdin2 with
              | Entered encoding stdin3 =>
                  let publish (r : world * result (list Song)) :=
                    match r with
                    | (w', Ok []) => (w', Finished None)
                    | (w', Ok songs) =>
                        (w', Finished (Some (playlist_id, map track_id songs)))
                    | (w', Raise e) => (w', Raised e)
                    end in
                  if bool_decide (encoding = lit "1") then
                    publish (get_first_word_encoding_songs draws sp_search lower
                               message w)
                  else if bool_decide (encoding = lit "2")
                          || bool_decide (encoding = [])
                  then
                    match get_first_index isdigit int stdin3 with
                    | Entered first_index stdin4 =>
                        match get_second_index isdigit int stdin4 with
                        | Entered second_index _ =>
                            publish (get_hex_encoding_songs draws dataset message
                                       first_index second_index w)
                        | c => (w, stopped c)
                        end
                    | c => (w, stopped c)
                    end
                  else (w, Finished None)
              | c => (w, stopped c)
              end
          | c => (w, stopped c)
          end
      end
  | c => (w, stopped c)
  end.
End Programs.

(** * Properties *)

(** ** Strings *)

Lemma getitem_nil {A} (i : Z) : getitem (@nil A) i = Raise IndexError.
Proof.
  unfold getitem, len. cbn [length Z.of_nat].
  destruct (_ || _) eqn:H; [reflexivity |].
  apply orb_false_iff in H as [H1 H2].
  apply Z.ltb_ge in H1. apply Z.leb_gt in H2.
  destruct (i <? 0) eqn:Hi; [apply Z.ltb_lt in Hi |]; lia.
Qed.

Lemma getitem_0_cons {A} (x : A) (l : list A) : getitem (x :: l) 0 = Ok x.
Proof.
  unfold getitem, len. cbn [Z.ltb Z.compare orb].
  destruct (Z.of_nat (length (x :: l)) <=? 0) eqn:H; [| reflexivity].
  apply Z.leb_le in H. cbn [length] in H. lia.
Qed.

Lemma getitem_0_ok {A} (l : list A) (x : A) :
  getitem l 0 = Ok x -> exists r, l = x :: r.
Proof.
  destruct l as [| y r]; [rewrite getitem_nil; discriminate |].
  rewrite getitem_0_cons. intros [= ->]. eauto.
Qed.

(** Indexing at a non-negative position is [lookup], and fails exactly
    from the length on. *)
Lemma getitem_nonneg {A} (l : list A) (i : Z) :
  0 <= i ->
  getitem l i = match l !! Z.to_nat i with
                | Some x => Ok x
                | None => Raise IndexError
                end.
Proof.
  intros Hi. unfold getitem, len. cbv zeta.
  assert (Hneg : (i <? 0) = false) by (apply Z.ltb_ge; lia).
  rewrite !Hneg. cbn [orb].
  destruct (Z.of_nat (length l) <=? i) eqn:Hle; [| reflexivity].
  apply Z.leb_le in Hle.
  rewrite (lookup_ge_None_2 l (Z.to_nat i)) by lia. reflexivity.
Qed.

(** When both reads succeed the identifier is longer than both indices. *)
Lemma getitem_ok_lt {A} (l : list A) (i : Z) (x : A) :
  getitem l i = Ok x -> i < len l.
Proof.
  unfold getitem. cbv zeta.
  destruct (i <? 0) eqn:Hneg.
  - apply Z.ltb_lt in Hneg. intros _. unfold len. lia.
  - rewrite ?Hneg. cbn [orb]. destruct (len l <=? i) eqn:Hle; [discriminate |].
    apply Z.leb_gt in Hle. intros _. exact Hle.
Qed.

Section StripFacts.
Variable drop : Z -> bool.

Lemma lstrip_by_all (s : str) :
  forallb drop s = true -> lstrip_by drop s = [].
Proof.
  induction s as [| c r IH]; cbn; [reflexivity |].
  intros [Hc Hr]%andb_true_iff. rewrite Hc. auto.
Qed.

Lemma lstrip_by_app_all (p s : str) :
  forallb drop p = true -> lstrip_by drop (p ++ s) = lstrip_by drop s.
Proof.
  induction p as [| c r IH]; cbn; [reflexivity |].
  intros [Hc Hr]%andb_true_iff. rewrite Hc. auto.
Qed.

Lemma lstrip_by_keep (c : Z) (s : str) :
  drop c = false -> lstrip_by drop (c :: s) = c :: s.
Proof. intros H. cbn. rewrite H. reflexivity. Qed.

Lemma lstrip_by_app (s t : str) :
  lstrip_by drop (s ++ t) =
    match lstrip_by drop s with
    | [] => lstrip_by drop t
    | u => u ++ t
    end.
Proof.
  induction s as [| c r IH]; cbn.
  - destruct (lstrip_by drop t); reflexivity.
  - destruct (drop c); [exact IH | reflexivity].
Qed.

Lemma strip_by_all (s : str) :
  forallb drop s = true -> strip_by drop s = [].
Proof.
  intros H. unfold strip_by, rstrip_by. rewrite (lstrip_by_all s) by exact H.
  reflexivity.
Qed.

Lemma forallb_rev (p : Z -> bool) (s : str) :
  forallb p (rev s) = forallb p s.
Proof.
  induction s as [| c r IH]; cbn; [reflexivity |].
  rewrite forallb_app, IH. cbn. rewrite andb_true_r. apply andb_comm.
Qed.

(** Characters outside the stripped set, at both ends, are kept. *)
Lemma lstrip_by_none (s : str) :
  forallb (fun c => negb (drop c)) s = true -> lstrip_by drop s = s.
Proof.
  destruct s as [| c r]; cbn; [reflexivity |].
  intros [Hc _]%andb_true_iff. apply negb_true_iff in Hc.
  rewrite Hc. reflexivity.
Qed.

Lemma strip_by_none (s : str) :
  forallb (fun c => negb (drop c)) s = true -> strip_by drop s = s.
Proof.
  intros H. unfold strip_by, rstrip_by.
  rewrite (lstrip_by_none s) by exact H.
  rewrite lstrip_by_none by (rewrite forallb_rev; exact H).
  apply rev_involutive.
Qed.

(** Stripping ignores what is stripped: a prefix and a suffix made of
    dropped characters change nothing. *)
Lemma strip_by_pad (p core q : str) :
  forallb drop p = true -> forallb drop q = true ->
  strip_by drop (p ++ core ++ q) = strip_by drop core.
Proof.
  intros Hp Hq. unfold strip_by, rstrip_by.
  rewrite lstrip_by_app_all by exact Hp.
  rewrite lstrip_by_app.
  destruct (lstrip_by drop core) as [| c u] eqn:Hcore.
  - rewrite (lstrip_by_all q) by exact Hq. reflexivity.
  - rewrite rev_app_distr.
    rewrite lstrip_by_app_all by (rewrite forallb_rev; exact Hq).
    reflexivity.
Qed.
End StripFacts.

Lemma is_punct_not_space (c : Z) : is_punct c = true -> isspace c = false.
Proof.
  unfold is_punct, punctuation. cbn [existsb].
  rewrite !orb_true_iff, !Z.eqb_eq.
  intros H. repeat (destruct H as [-> | H]; [reflexivity |]). discriminate.
Qed.

Lemma all_punct_no_space (s : str) :
  forallb is_punct s = true ->
  forallb (fun c => negb (isspace c)) s = true.
Proof.
  induction s as [| c r IH]; cbn; [reflexivity |].
  intros [Hc Hr]%andb_true_iff.
  rewrite (is_punct_not_space c Hc). cbn. auto.
Qed.

(** ** The [result] and [M] monads *)

Lemma bind_ok {A B} (f : A -> result B) (m : result A) (b : B) :
  m ≫= f = Ok b -> exists a, m = Ok a /\ f a = Ok b.
Proof. destruct m as [a | e]; cbn; [eauto | discriminate]. Qed.

Lemma M_bind_unfold {A B} (f : A -> M B) (m : M A) (w : world) :
  (m ≫= f) w = match m w with
               | (w', Ok a) => f a w'
               | (w', Raise e) => (w', Raise e)
               end.
Proof. reflexivity. Qed.

(** ** First-Word decoding *)

(** The only exception the decoding loop can raise. *)
Lemma decode_first_word_step_error (words : list str) (song : Song) (e : exn) :
  decode_first_word_step words song = Raise e -> e = IndexError.
Proof.
  unfold decode_first_word_step.
  destruct (name song) as [| c r]; [discriminate |].
  destruct (split (c :: r)) as [| tok toks].
  - rewrite getitem_nil. cbn. congruence.
  - rewrite getitem_0_cons. cbn. destruct (strip_punct tok); discriminate.
Qed.


(** A song whose name has no word stops the decoding, whatever precedes
    and follows it. *)
Lemma split_go_blank (s : str) :
  forallb isspace s = true -> split_go [] s = [].
Proof.
  induction s as [| c r IH]; cbn; [reflexivity |].
  intros [Hc Hr]%andb_true_iff. rewrite Hc. auto.
Qed.

Lemma decode_first_word_step_blank (words : list str) (song : Song) :
  name song <> [] -> forallb isspace (name song) = true ->
  decode_first_word_step words song = Raise IndexError.
Proof.
  intros Hne Hblank. unfold decode_first_word_step, split.
  rewrite (split_go_blank _ Hblank), getitem_nil.
  destruct (name song); [contradiction | reflexivity].
Qed.

Lemma decode_first_word_blank_name (songs : list Song) :
  Exists (fun s => name s <> [] /\ forallb isspace (name s) = true) songs ->
  decode_first_word_encoding songs = Raise IndexError.
Proof.
  intros H. unfold decode_first_word_encoding.
  assert (Hloop : forall words,
             decode_first_word_loop songs words = Raise IndexError).
  { induction H as [s rest [Hne Hb] | s rest _ IH]; intros words; cbn.
    - rewrite (decode_first_word_step_blank words s Hne Hb). reflexivity.
    - destruct (decode_first_word_step words s) as [ws | e] eqn:Hs; cbn.
      + apply IH.
      + f_equal. eapply decode_first_word_step_error, Hs. }
  rewrite Hloop. reflexivity.
Qed.

(** On names that hold a word the decoding returns: songs with an empty
    name are skipped, the empty list gives the empty string. *)
Lemma decode_first_word_empty : decode_first_word_encoding [] = Ok [].
Proof. reflexivity. Qed.

Lemma decode_first_word_skips_empty_name (song : Song) (songs : list Song) :
  name song = [] ->
  decode_first_word_encoding (song :: songs) = decode_first_word_encoding songs.
Proof.
  intros H. unfold decode_first_word_encoding. cbn.
  unfold decode_first_word_step. rewrite H. reflexivity.
Qed.

(** C3: the decoding is not total: on the playlist of one song whose name
    is a single space, [song.name.split()[0]] raises [IndexError]. *)
Theorem decode_first_word_whitespace_name_raises :
  decode_first_word_encoding [mkSong (lit "4uLU6hMCjMI75M1A2tKUQC") [32] []]
  = Raise IndexError.
Proof. vm_compute. reflexivity. Qed.

(** ** Hex decoding *)

Lemma join_nil_app (l1 l2 : list str) :
  join [] (l1 ++ l2) = join [] l1 ++ join [] l2.
Proof.
  induction l1 as [| w [| w' r] IH]; cbn [app join].
  - reflexivity.
  - destruct l2; cbn; [rewrite app_nil_r |]; reflexivity.
  - cbn [app join] in IH. rewrite IH. rewrite <- app_assoc. reflexivity.
Qed.

Lemma join_nil_cons (w : str) (l : list str) : join [] (w :: l) = w ++ join [] l.
Proof. apply (join_nil_app [w] l). Qed.

Lemma decode_hex_step_short (i j : Z) (acc : list str) (song : Song) :
  len (track_id song) <= Z.max i j ->
  decode_hex_step i j acc song = Raise (TruncatedIdentifier (track_id song) i j).
Proof.
  intros H. unfold decode_hex_step. cbv zeta.
  apply Z.leb_le in H. rewrite H. reflexivity.
Qed.

Lemma decode_hex_step_long (i j : nat) (acc : list str) (song : Song) :
  Z.max (Z.of_nat i) (Z.of_nat j) < len (track_id song) ->
  exists p, song_pair i j song = Some p /\
            decode_hex_step (Z.of_nat i) (Z.of_nat j) acc song = Ok (acc ++ [p]).
Proof.
  intros H. unfold decode_hex_step, song_pair. cbv zeta.
  apply Z.leb_gt in H as Hb. rewrite Hb.
  rewrite !getitem_nonneg by lia. rewrite !Nat2Z.id.
  unfold len in H.
  destruct (lookup_lt_is_Some_2 (track_id song) i) as [a Ha]; [lia |].
  destruct (lookup_lt_is_Some_2 (track_id song) j) as [b Hb']; [lia |].
  rewrite Ha, Hb'. cbn. eauto.
Qed.

Lemma song_pair_some_long (i j : nat) (song : Song) (p : str) :
  song_pair i j song = Some p ->
  Z.max (Z.of_nat i) (Z.of_nat j) < len (track_id song).
Proof.
  unfold song_pair, len.
  destruct (track_id song !! i) as [a |] eqn:Ha; [| discriminate].
  destruct (track_id song !! j) as [b |] eqn:Hb; [| discriminate].
  intros _. apply lookup_lt_Some in Ha, Hb. lia.
Qed.

Lemma song_pair_none_short (i j : nat) (song : Song) :
  song_pair i j song = None ->
  len (track_id song) <= Z.max (Z.of_nat i) (Z.of_nat j).
Proof.
  unfold song_pair, len.
  destruct (track_id song !! i) as [a |] eqn:Ha.
  - destruct (track_id song !! j) as [b |] eqn:Hb; [discriminate |].
    intros _. apply lookup_ge_None in Hb. lia.
  - intros _. apply lookup_ge_None in Ha. lia.
Qed.

(** With indices from zero up, the loop collects one pair of characters
    per song, in order, and stops at the first identifier that is too
    short. *)
Lemma decode_hex_loop_pairs (i j : nat) (songs : list Song) (acc : list str) :
  match mapM (song_pair i j) songs with
  | Some ps => decode_hex_loop (Z.of_nat i) (Z.of_nat j) songs acc = Ok (acc ++ ps)
  | None =>
      exists s, In s songs /\
        len (track_id s) <= Z.max (Z.of_nat i) (Z.of_nat j) /\
        decode_hex_loop (Z.of_nat i) (Z.of_nat j) songs acc
        = Raise (TruncatedIdentifier (track_id s) (Z.of_nat i) (Z.of_nat j))
  end.
Proof.
  revert acc. induction songs as [| s rest IH]; intros acc.
  - cbn. rewrite app_nil_r. reflexivity.
  - cbn [mapM decode_hex_loop].
    destruct (song_pair i j s) as [p |] eqn:Hp.
    + destruct (decode_hex_step_long i j acc s (song_pair_some_long _ _ _ _ Hp))
        as (p' & Hp' & Hstep).
      assert (p' = p) by congruence. subst p'.
      rewrite Hstep. cbn.
      specialize (IH (acc ++ [p])).
      destruct (mapM (song_pair i j) rest) as [ps |]; cbn.
      * rewrite IH, <- app_assoc. reflexivity.
      * destruct IH as (s' & Hin & Hshort & Hloop).
        exists s'. split; [right; exact Hin |]. split; [exact Hshort | exact Hloop].
    + cbn. exists s. split; [left; reflexivity |].
      pose proof (song_pair_none_short _ _ _ Hp) as Hshort.
      split; [exact Hshort |].
      rewrite (decode_hex_step_short _ _ acc s Hshort). reflexivity.
Qed.

(** Whatever the indices, the loop raises nothing but [IndexError] and
    [TruncatedIdentifier], the latter for a song that is too short. *)
Lemma decode_hex_step_error (i j : Z) (acc : list str) (s : Song) (e : exn) :
  decode_hex_step i j acc s = Raise e ->
  e = IndexError \/
  (len (track_id s) <= Z.max i j /\ e = TruncatedIdentifier (track_id s) i j).
Proof.
  unfold decode_hex_step. cbv zeta.
  destruct (len (track_id s) <=? Z.max i j) eqn:Hle.
  - intros [= <-]. right. apply Z.leb_le in Hle. auto.
  - unfold getitem. cbv zeta.
    repeat match goal with
           | |- context [if ?b then _ else _] => destruct b
           | |- context [match ?l !! ?k with _ => _ end] => destruct (l !! k)
           end; cbn; intros [= <-]; auto.
Qed.

Lemma decode_hex_loop_error (i j : Z) (songs : list Song) (acc : list str)
    (e : exn) :
  decode_hex_loop i j songs acc = Raise e ->
  e = IndexError \/
  exists s, In s songs /\ len (track_id s) <= Z.max i j /\
            e = TruncatedIdentifier (track_id s) i j.
Proof.
  revert acc. induction songs as [| s rest IH]; intros acc; cbn.
  - discriminate.
  - destruct (decode_hex_step i j acc s) as [acc' | e'] eqn:Hs; cbn.
    + intros H. destruct (IH _ H) as [-> | (s' & Hin & Hshort & ->)]; [auto |].
      right. exists s'. auto.
    + intros [= <-]. destruct (decode_hex_step_error _ _ _ _ _ Hs) as [-> | [Hshort ->]];
        [auto |]. right. exists s. auto.
Qed.

Lemma decode_hex_loop_length (i j : Z) (songs : list Song) (acc hb : list str) :
  decode_hex_loop i j songs acc = Ok hb ->
  length hb = (length acc + length songs)%nat.
Proof.
  revert acc. induction songs as [| s rest IH]; intros acc; cbn.
  - intros [= <-]. lia.
  - destruct (decode_hex_step i j acc s) as [acc' | e'] eqn:Hs; cbn; [| discriminate].
    intros H. rewrite (IH _ H).
    unfold decode_hex_step in Hs. cbv zeta in Hs.
    destruct (len (track_id s) <=? Z.max i j); [discriminate |].
    destruct (getitem (track_id s) i); cbn in Hs; [| discriminate].
    destruct (getitem (track_id s) j); cbn in Hs; [| discriminate].
    injection Hs as <-. rewrite length_app. cbn. lia.
Qed.

(** The handler of [decode_hex_encoding] turns both failures into
    [MalformedPayload], and lets a decoded message through. *)
Lemma decode_payload_cases (h : str) :
  try_except_ValueError
    (decoded_bytes ← fromhex h; utf8_decode decoded_bytes)
    (Raise (MalformedPayload h))
  = match fromhex_scan h with
    | None => Raise (MalformedPayload h)
    | Some b => match utf8_decode_scan b with
                | None => Raise (MalformedPayload h)
                | Some m => Ok m
                end
    end.
Proof.
  unfold fromhex, utf8_decode.
  destruct (fromhex_scan h) as [b |]; cbn; [| reflexivity].
  destruct (utf8_decode_scan b); reflexivity.
Qed.

(** C6: with indices from zero up, a playlist holding a song whose
    identifier is not longer than [max(i, j)] makes [decode_hex_encoding]
    raise [TruncatedIdentifier] for such a song instead of returning; when
    every identifier is longer, the error is never raised. *)
Theorem decode_hex_truncated (songs : list Song) (i j : Z) :
  0 <= i -> 0 <= j ->
  (Exists (fun s => len (track_id s) <= Z.max i j) songs ->
   exists s, In s songs /\ len (track_id s) <= Z.max i j /\
     decode_hex_encoding songs i j = Raise (TruncatedIdentifier (track_id s) i j))
  /\
  (Forall (fun s => Z.max i j < len (track_id s)) songs ->
   forall tid i' j',
     decode_hex_encoding songs i j <> Raise (TruncatedIdentifier tid i' j')).
Proof.
  intros Hi Hj. split.
  - intros Hex. unfold decode_hex_encoding.
    pose proof (decode_hex_loop_pairs (Z.to_nat i) (Z.to_nat j) songs []) as Hloop.
    rewrite !Z2Nat.id in Hloop by lia.
    destruct (mapM (song_pair (Z.to_nat i) (Z.to_nat j)) songs) as [ps |] eqn:Hps.
    + exfalso.
      assert (Hall : Forall (is_Some ∘ song_pair (Z.to_nat i) (Z.to_nat j)) songs)
        by (apply mapM_is_Some_1; rewrite Hps; eauto).
      apply Exists_exists in Hex as (s & Hin & Hshort).
      rewrite Forall_forall in Hall. destruct (Hall s Hin) as [p Hp].
      apply song_pair_some_long in Hp. rewrite !Z2Nat.id in Hp by lia. lia.
    + destruct Hloop as (s & Hin & Hshort & Hloop).
      exists s. rewrite Hloop. auto.
  - intros Hall tid i' j' Hdec. unfold decode_hex_encoding in Hdec.
    destruct (decode_hex_loop i j songs []) as [hb | e] eqn:Hloop; cbn in Hdec.
    + rewrite decode_payload_cases in Hdec.
      destruct (fromhex_scan (join [] hb)) as [b |]; [| discriminate].
      destruct (utf8_decode_scan b); discriminate.
    + injection Hdec as ->.
      destruct (decode_hex_loop_error _ _ _ _ _ Hloop) as [? | (s & Hin & Hshort & _)];
        [discriminate |].
      rewrite Forall_forall in Hall.
      specialize (Hall s (proj2 (list_elem_of_In _ _) Hin)). lia.
Qed.

(** C7: once the loop has accumulated one two-character string per song,
    a failure to parse their concatenation as hexadecimal, and a failure
    to decode the parsed bytes as UTF-8, are both (and only they are)
    reported as [MalformedPayload] carrying that concatenation; neither a
    [ValueError] nor a [UnicodeDecodeError] leaves the function. *)
Theorem decode_hex_malformed (songs : list Song) (i j : Z)
    (hex_bytes : list str) :
  decode_hex_loop i j songs [] = Ok hex_bytes ->
  let hex_string := join [] hex_bytes in
  length hex_bytes = length songs /\
  ((is_ok (fromhex hex_string) = false \/
    exists b, fromhex hex_string = Ok b /\ is_ok (utf8_decode b) = false)
   <-> decode_hex_encoding songs i j = Raise (MalformedPayload hex_string)) /\
  decode_hex_encoding songs i j <> Raise ValueError /\
  decode_hex_encoding songs i j <> Raise UnicodeDecodeError.
Proof.
  intros Hloop hex_string.
  split; [apply (decode_hex_loop_length _ _ _ _ _ Hloop) |].
  unfold decode_hex_encoding. rewrite Hloop. cbn [mbind result_bind].
  fold hex_string. rewrite decode_payload_cases.
  unfold fromhex, utf8_decode.
  destruct (fromhex_scan hex_string) as [b |] eqn:Hb.
  - destruct (utf8_decode_scan b) as [m |] eqn:Hm.
    + repeat split; try discriminate.
      intros [[=] | (b' & [= <-] & Hbad)]. rewrite Hm in Hbad. discriminate.
    + repeat split; try discriminate.
      intros _. right. exists b. rewrite Hm. auto.
  - repeat split; try discriminate. auto.
Qed.

(** Where no identifier has whitespace at the first index, the scan of
    [bytes.fromhex] reads the concatenated pairs song by song. *)
Lemma fromhex_scan_pairs (i j : nat) (songs : list Song) (ps : list str) :
  mapM (song_pair i j) songs = Some ps ->
  no_space_at i songs = true ->
  fromhex_scan (join [] ps) = mapM (song_hex_byte i j) songs.
Proof.
  revert ps. induction songs as [| s rest IH]; intros ps Hps Hsp.
  - cbn in Hps. injection Hps as <-. reflexivity.
  - cbn [mapM] in Hps. cbn [no_space_at forallb] in Hsp.
    apply andb_true_iff in Hsp as [Hs Hrest].
    destruct (song_pair i j s) as [p |] eqn:Hp; [| discriminate].
    destruct (mapM (song_pair i j) rest) as [ps' |] eqn:Hps'; [| discriminate].
    cbn in Hps. injection Hps as <-.
    specialize (IH ps' eq_refl Hrest).
    rewrite join_nil_cons.
    change (mapM (song_hex_byte i j) (s :: rest))
      with (y ← song_hex_byte i j s;
            k ← mapM (song_hex_byte i j) rest; mret (y :: k)).
    assert (Hbyte : song_hex_byte i j s = parse_hex_byte p)
      by (unfold song_hex_byte; rewrite Hp; reflexivity).
    rewrite Hbyte. clear Hbyte.
    unfold song_pair in Hp.
    destruct (track_id s !! i) as [a |]; [| discriminate].
    destruct (track_id s !! j) as [b |]; [| discriminate].
    cbn in Hp. injection Hp as <-.
    apply negb_true_iff in Hs.
    cbn [app fromhex_scan parse_hex_byte]. rewrite Hs.
    destruct (hexval a) as [top |]; cbn; [| reflexivity].
    destruct (hexval b) as [bot |]; cbn; [| reflexivity].
    rewrite IH. reflexivity.
Qed.

Lemma song_hex_byte_pair_none (i j : nat) (songs : list Song) :
  mapM (song_pair i j) songs = None -> mapM (song_hex_byte i j) songs = None.
Proof.
  intros H. apply mapM_None. apply mapM_None in H.
  eapply Exists_impl; [exact H |]. cbn. intros s Hs.
  unfold song_hex_byte. rewrite Hs. reflexivity.
Qed.

(** C5, as amended: for indices from zero up and every playlist in which
    no identifier has ASCII whitespace at the first index,
    [decode_hex_encoding] returns exactly the UTF-8 decoding of the bytes
    read one per song, in playlist order, from the characters at the two
    indices (and fails when that decoding does not exist). *)
Theorem decode_hex_one_byte_per_song (songs : list Song) (i j : nat) :
  no_space_at i songs = true ->
  to_option (decode_hex_encoding songs (Z.of_nat i) (Z.of_nat j))
  = spec_hex_decode songs i j
  /\
  forall m, decode_hex_encoding songs (Z.of_nat i) (Z.of_nat j) = Ok m ->
    exists bs, mapM (song_hex_byte i j) songs = Some bs /\
               length bs = length songs /\
               utf8_decode_scan bs = Some m.
Proof.
  intros Hsp.
  assert (Heq : to_option (decode_hex_encoding songs (Z.of_nat i) (Z.of_nat j))
                = spec_hex_decode songs i j).
  { unfold decode_hex_encoding, spec_hex_decode.
    pose proof (decode_hex_loop_pairs i j songs []) as Hloop.
    destruct (mapM (song_pair i j) songs) as [ps |] eqn:Hps.
    - rewrite Hloop. cbn [mbind result_bind app].
      rewrite decode_payload_cases, (fromhex_scan_pairs i j songs ps Hps Hsp).
      destruct (mapM (song_hex_byte i j) songs) as [bs |]; cbn; [| reflexivity].
      destruct (utf8_decode_scan bs); reflexivity.
    - destruct Hloop as (s & _ & _ & Hloop). rewrite Hloop.
      rewrite (song_hex_byte_pair_none _ _ _ Hps). reflexivity. }
  split; [exact Heq |].
  intros m Hm. rewrite Hm in Heq. cbn in Heq. unfold spec_hex_decode in Heq.
  destruct (mapM (song_hex_byte i j) songs) as [bs |] eqn:Hbs; [| discriminate].
  exists bs. split; [reflexivity |]. split; [| symmetry; exact Heq].
  symmetry. eapply length_mapM, Hbs.
Qed.

(** ** Hexadecimal text and UTF-8: decoding undoes encoding *)

Lemma hexdigit_spec (n : Z) :
  0 <= n < 16 ->
  hexval (hexdigit n) = Some n /\ Py_ISSPACE (hexdigit n) = false.
Proof.
  intros H. unfold hexval, hexdigit, Py_ISSPACE.
  destruct (n <? 10) eqn:Hn; zcmp; decide_cmps; split;
    solve [reflexivity | f_equal; lia].
Qed.

Lemma fromhex_scan_hex (b : bytes) :
  Forall is_byte b -> fromhex_scan (hex b) = Some b.
Proof.
  induction 1 as [| x r Hx _ IH]; [reflexivity |].
  unfold is_byte in Hx. cbn [hex flat_map app]. fold (hex r).
  cbn [fromhex_scan].
  destruct (hexdigit_spec (x / 16)) as [Htop Hsp]; [zsolve |].
  destruct (hexdigit_spec (x mod 16)) as [Hbot _]; [zsolve |].
  rewrite Hsp, Htop, Hbot, IH. cbn. do 2 f_equal. zsolve.
Qed.

Lemma is_scalar_spec (c : Z) :
  is_scalar c = true <-> (0 <= c < 0xD800) \/ (0xE000 <= c <= 0x10FFFF).
Proof.
  unfold is_scalar. rewrite orb_true_iff, !andb_true_iff.
  rewrite !Z.leb_le, !Z.ltb_lt. tauto.
Qed.

Lemma utf8_encode_char_bytes (c : Z) (b : bytes) :
  utf8_encode_char c = Ok b -> Forall is_byte b.
Proof.
  unfold utf8_encode_char.
  destruct (is_scalar c) eqn:Hs; cbn [negb]; [| discriminate].
  apply is_scalar_spec in Hs.
  repeat match goal with
         | |- context [if ?t then _ else _] =>
             let H := fresh "Hc" in destruct t eqn:H; zcmp
         end;
    intros [= <-]; repeat constructor; unfold is_byte; zsolve.
Qed.

(** One character: the decoder reads back what the encoder wrote and
    goes on with what follows. *)
Lemma utf8_decode_scan_char (c : Z) (b rest : bytes) :
  utf8_encode_char c = Ok b ->
  utf8_decode_scan (b ++ rest) = cons c <$> utf8_decode_scan rest.
Proof.
  unfold utf8_encode_char.
  destruct (is_scalar c) eqn:Hs; cbn [negb]; [| discriminate].
  apply is_scalar_spec in Hs.
  destruct (c <? 0x80) eqn:H1; zcmp.
  { intros [= <-]. cbn [app utf8_decode_scan]. decide_cmps. reflexivity. }
  destruct (c <? 0x800) eqn:H2; zcmp.
  { intros [= <-]. cbn [app utf8_decode_scan]. unfold is_cont.
    decide_cmps. do 2 f_equal. zsolve. }
  destruct (c <? 0x10000) eqn:H3; zcmp.
  { intros [= <-]. cbn [app utf8_decode_scan]. unfold second_ok3, is_cont.
    decide_cmps; do 2 f_equal; zsolve. }
  intros [= <-]. cbn [app utf8_decode_scan]. unfold second_ok4, is_cont.
  decide_cmps; do 2 f_equal; zsolve.
Qed.

Lemma utf8_roundtrip (s : str) (b : bytes) :
  utf8_encode s = Ok b -> utf8_decode_scan b = Some s /\ Forall is_byte b.
Proof.
  revert b. induction s as [| c r IH]; intros b; cbn [utf8_encode].
  - intros [= <-]. split; [reflexivity | constructor].
  - destruct (utf8_encode_char c) as [bc |] eqn:Hc; cbn; [| discriminate].
    destruct (utf8_encode r) as [br |] eqn:Hr; cbn; [| discriminate].
    intros [= <-]. destruct (IH br eq_refl) as [Hdec Hbytes]. split.
    + rewrite (utf8_decode_scan_char c bc br Hc), Hdec. reflexivity.
    + apply Forall_app. split; [eapply utf8_encode_char_bytes, Hc | exact Hbytes].
Qed.

(** The encoder refuses exactly the strings that hold something else than
    a scalar value. *)
Lemma utf8_encode_total (s : str) :
  forallb is_scalar s = true -> exists b, utf8_encode s = Ok b.
Proof.
  induction s as [| c r IH]; cbn [forallb utf8_encode]; [eauto |].
  intros [Hc Hr]%andb_true_iff. destruct (IH Hr) as [br Hbr].
  unfold utf8_encode_char. rewrite Hc, Hbr. cbn [negb].
  repeat match goal with
         | |- context [if ?t then _ else _] => destruct t
         end; cbn; eauto.
Qed.

Lemma chunks2_hex (b : bytes) :
  chunks2 (hex b) = map (fun x => [hexdigit (x / 16); hexdigit (x mod 16)]) b.
Proof.
  induction b as [| x r IH]; [reflexivity |].
  cbn [hex flat_map app map]. fold (hex r). cbn [chunks2]. rewrite IH.
  reflexivity.
Qed.

Lemma join_nil_chunks2_hex (b : bytes) : join [] (chunks2 (hex b)) = hex b.
Proof.
  rewrite chunks2_hex. induction b as [| x r IH]; [reflexivity |].
  cbn [map]. rewrite join_nil_cons, IH. reflexivity.
Qed.

(** ** The sender *)

Lemma filter_result_ok {A} (p : A -> result bool) (l l' : list A) :
  filter_result p l = Ok l' ->
  forall x, In x l' -> In x l /\ p x = Ok true.
Proof.
  revert l'. induction l as [| y r IH]; intros l'; cbn [filter_result].
  - intros [= <-] x [].
  - destruct (p y) as [b |] eqn:Hy; cbn; [| discriminate].
    destruct (filter_result p r) as [r' |]; cbn; [| discriminate].
    intros [= <-] x Hx. specialize (IH r' eq_refl).
    destruct b.
    + destruct Hx as [<- | Hx]; [split; [left; reflexivity | exact Hy] |].
      destruct (IH x Hx). split; [right |]; assumption.
    + destruct (IH x Hx). split; [right |]; assumption.
Qed.

Lemma row_matches_true (i j : Z) (byte : str) (row : Row) :
  row_matches i j byte row = Ok true ->
  exists a b,
    getitem (row_track_id row) i = Ok a /\ getitem byte 0 = Ok a /\
    getitem (row_track_id row) j = Ok b /\ getitem byte 1 = Ok b.
Proof.
  unfold row_matches.
  destruct (getitem (row_track_id row) i) as [a |]; cbn; [| discriminate].
  destruct (getitem byte 0) as [b0 |]; cbn; [| discriminate].
  destruct (a =? b0) eqn:Ha; [| discriminate]. apply Z.eqb_eq in Ha. subst b0.
  destruct (getitem (row_track_id row) j) as [b |]; cbn; [| discriminate].
  destruct (getitem byte 1) as [b1 |]; cbn; [| discriminate].
  intros [= Hb]. apply Z.eqb_eq in Hb. subst b1. eauto 10.
Qed.

(** A song is read back as the pair of characters at the two indices as
    soon as both can be read. *)
Lemma decode_hex_step_read (i j : Z) (acc : list str) (s : Song) (a b : Z) :
  getitem (track_id s) i = Ok a -> getitem (track_id s) j = Ok b ->
  decode_hex_step i j acc s = Ok (acc ++ [[a; b]]).
Proof.
  intros Ha Hb. unfold decode_hex_step. cbv zeta.
  pose proof (getitem_ok_lt _ _ _ Ha). pose proof (getitem_ok_lt _ _ _ Hb).
  replace (len (track_id s) <=? Z.max i j) with false
    by (symmetry; apply Z.leb_gt; lia).
  rewrite Ha, Hb. reflexivity.
Qed.

Lemma decode_hex_loop_read (i j : Z) (songs : list Song) (pairs acc : list str) :
  Forall2 (fun s p => forall acc', decode_hex_step i j acc' s = Ok (acc' ++ [p]))
    songs pairs ->
  decode_hex_loop i j songs acc = Ok (acc ++ pairs).
Proof.
  intros H. revert acc. induction H as [| s p songs pairs Hs _ IH]; intros acc.
  - cbn. rewrite app_nil_r. reflexivity.
  - cbn [decode_hex_loop]. rewrite Hs. cbn. rewrite IH, <- app_assoc. reflexivity.
Qed.

Lemma hex_pairs_read_back (i j : Z) (new : list Song) (b : bytes) :
  Forall2 (fun s byte => exists x y,
             getitem (track_id s) i = Ok x /\ getitem byte 0 = Ok x /\
             getitem (track_id s) j = Ok y /\ getitem byte 1 = Ok y)
    new (map (fun x => [hexdigit (x / 16); hexdigit (x mod 16)]) b) ->
  Forall2 (fun s p => forall acc', decode_hex_step i j acc' s = Ok (acc' ++ [p]))
    new (map (fun x => [hexdigit (x / 16); hexdigit (x mod 16)]) b).
Proof.
  revert new. induction b as [| c r IH]; intros new H; cbn [map] in *.
  - inversion H. constructor.
  - inversion H as [| s p ss ps (x & y & Hx & Hx' & Hy & Hy') Hrest]; subst.
    constructor; [| apply IH, Hrest].
    intros acc'. rewrite getitem_0_cons in Hx'. injection Hx' as <-.
    change (getitem [hexdigit (c / 16); hexdigit (c mod 16)] 1)
      with (@Ok Z (hexdigit (c mod 16))) in Hy'.
    injection Hy' as <-. apply decode_hex_step_read; assumption.
Qed.

Section SenderFacts.
Variable draws : nat -> nat.
Variable sp_search : nat -> str -> option (list Song).
Variable lower : str -> str.
Variable dataset : list Row.

Lemma random_choice_in {A} (seq : list A) (w w' : world) (x : A) :
  random_choice draws seq w = (w', Ok x) ->
  In x seq /\ cache_file w' = cache_file w /\ search_log w' = search_log w.
Proof.
  unfold random_choice.
  destruct (seq !! _) as [y |] eqn:Hy; [| discriminate].
  intros [= <- <-]. cbn. split; [| auto].
  apply list_elem_of_In. eapply list_elem_of_lookup_2, Hy.
Qed.

Lemma random_choice_cut {A} (seq : list A) (w w' : world) (r : result A) :
  random_choice draws seq w = (w', r) -> cache_cut w' = cache_cut w.
Proof. unfold random_choice. intros [= <- _]. reflexivity. Qed.

Lemma random_choice_nonempty {A} (x : A) (seq : list A) (w : world) :
  exists y, random_choice draws (x :: seq) w
            = (mkWorld (cache_file w) (cache_cut w) (S (rand_pos w))
                 (search_log w), Ok y).
Proof.
  unfold random_choice.
  destruct (lookup_lt_is_Some_2 (x :: seq)
              (draws (rand_pos w) mod length (x :: seq))%nat) as [y Hy].
  { apply Nat.mod_upper_bound. cbn. lia. }
  rewrite Hy. eauto.
Qed.

(** The songs the Hex loop appends carry, at the two indices, the two
    characters of the byte they were looked up for. *)
Lemma hex_loop_ok (i j : Z) (byte_list : list str) (acc songs : list Song)
    (w w' : world) :
  hex_loop draws dataset i j byte_list acc w = (w', Ok songs) ->
  exists new, songs = acc ++ new /\
    Forall2 (fun s byte => exists a b,
               getitem (track_id s) i = Ok a /\ getitem byte 0 = Ok a /\
               getitem (track_id s) j = Ok b /\ getitem byte 1 = Ok b)
      new byte_list.
Proof.
  revert acc w. induction byte_list as [| byte rest IH]; intros acc w.
  - cbn. intros [= <- <-]. exists []. rewrite app_nil_r. split; constructor.
  - cbn [hex_loop]. rewrite M_bind_unfold. unfold lift at 1.
    destruct (filter_result (row_matches i j byte) dataset)
      as [[| row rows] | e] eqn:Hscan; try discriminate.
    rewrite M_bind_unfold.
    destruct (random_choice draws (row :: rows) w) as [w1 [song_data | e]] eqn:Hch;
      [| discriminate].
    intros Hloop. apply IH in Hloop as (new & -> & Hnew).
    exists (mkSong (row_track_id song_data) (row_track_name song_data)
              (track_url_prefix ++ row_track_id song_data) :: new).
    split; [rewrite <- app_assoc; reflexivity |].
    constructor; [| exact Hnew]. cbn [track_id].
    apply random_choice_in in Hch as [Hin _].
    destruct (filter_result_ok _ _ _ Hscan _ Hin) as [_ Hm].
    apply row_matches_true, Hm.
Qed.

Lemma hex_loop_total (i j : Z) (byte_list : list str) (acc : list Song)
    (w : world) :
  Forall (scan_finds dataset i j) byte_list ->
  exists songs w', hex_loop draws dataset i j byte_list acc w = (w', Ok songs).
Proof.
  intros H. revert acc w.
  induction H as [| byte rest (row & rows & Hscan) _ IH]; intros acc w.
  - cbn. eauto.
  - cbn [hex_loop]. rewrite M_bind_unfold. unfold lift at 1. rewrite Hscan.
    rewrite M_bind_unfold.
    destruct (random_choice_nonempty row rows w) as [y ->]. apply IH.
Qed.

Lemma hex_loop_app (i j : Z) (pre rest : list str) (acc : list Song)
    (w : world) :
  hex_loop draws dataset i j (pre ++ rest) acc w =
    match hex_loop draws dataset i j pre acc w with
    | (w1, Ok songs) => hex_loop draws dataset i j rest songs w1
    | (w1, Raise e) => (w1, Raise e)
    end.
Proof.
  revert acc w. induction pre as [| byte pre IH]; intros acc w;
    cbn [app hex_loop]; [reflexivity |].
  rewrite !M_bind_unfold. unfold lift.
  destruct (filter_result (row_matches i j byte) dataset)
    as [[| row rows] | e]; try reflexivity.
  rewrite !M_bind_unfold.
  destruct (random_choice draws (row :: rows) w) as [w1 [song_data | e]];
    [apply IH | reflexivity].
Qed.

(** The first byte for which the scan finds no record ends the Hex
    encoding with a failure that names the byte. *)
Lemma hex_loop_not_found (i j : Z) (pre rest : list str) (byte : str)
    (w w1 : world) (songs : list Song) :
  hex_loop draws dataset i j pre [] w = (w1, Ok songs) ->
  filter_result (row_matches i j byte) dataset = Ok [] ->
  hex_loop draws dataset i j (pre ++ byte :: rest) [] w
  = (w1, Raise (ResolutionFailureByte byte)).
Proof.
  intros Hpre Hscan. rewrite hex_loop_app, Hpre.
  cbn [hex_loop]. rewrite M_bind_unfold. unfold lift. rewrite Hscan.
  reflexivity.
Qed.

(** What the Hex encoding returns decodes to the message. *)
Lemma hex_roundtrip_partial (message : str) (i j : Z) (w w' : world)
    (songs : list Song) :
  get_hex_encoding_songs draws dataset message i j w = (w', Ok songs) ->
  decode_hex_encoding songs i j = Ok message.
Proof.
  unfold get_hex_encoding_songs. rewrite M_bind_unfold. unfold lift at 1.
  destruct (utf8_encode message) as [encoded |] eqn:Henc; [| discriminate].
  intros Hloop. apply hex_loop_ok in Hloop as (new & -> & Hnew).
  cbn [app]. destruct (utf8_roundtrip _ _ Henc) as [Hdec Hbytes].
  unfold decode_hex_encoding.
  rewrite (decode_hex_loop_read i j new (chunks2 (hex encoded)) []).
  - cbn [app mbind result_bind].
    rewrite decode_payload_cases, join_nil_chunks2_hex.
    rewrite (fromhex_scan_hex _ Hbytes), Hdec. reflexivity.
  - rewrite chunks2_hex in *. apply hex_pairs_read_back, Hnew.
Qed.

(** C1: for every message and every pair of indices, the playlist that
    [get_hex_encoding_songs] returns decodes, with the same indices, to
    the message; and the encoding does return a playlist when the
    message is UTF-8 encodable and the dataset scan finds, for each of
    its hexadecimal bytes, a record (whose identifier then carries the
    byte's two characters at the two indices). *)
Theorem hex_roundtrip (message : str) (i j : Z) (w : world) :
  (forall songs w',
      get_hex_encoding_songs draws dataset message i j w = (w', Ok songs) ->
      decode_hex_encoding songs i j = Ok message)
  /\
  (forall encoded,
      utf8_encode message = Ok encoded ->
      Forall (scan_finds dataset i j) (chunks2 (hex encoded)) ->
      exists songs w',
        get_hex_encoding_songs draws dataset message i j w = (w', Ok songs) /\
        decode_hex_encoding songs i j = Ok message).
Proof.
  split.
  - intros songs w' H. eapply hex_roundtrip_partial, H.
  - intros encoded Henc Hscan.
    destruct (hex_loop_total i j (chunks2 (hex encoded)) [] w Hscan)
      as (songs & w' & Hloop).
    assert (Hrun : get_hex_encoding_songs draws dataset message i j w
                   = (w', Ok songs)).
    { unfold get_hex_encoding_songs. rewrite M_bind_unfold. unfold lift at 1.
      rewrite Henc. exact Hloop. }
    exists songs, w'. split; [exact Hrun |].
    eapply hex_roundtrip_partial, Hrun.
Qed.

End SenderFacts.

(** ** Words *)

Lemma split_go_tokens (tok s : str) :
  no_space tok = true -> Forall is_token (split_go tok s).
Proof.
  revert tok. induction s as [| c r IH]; intros tok Htok; cbn [split_go].
  - destruct tok; constructor; [split; [discriminate | exact Htok] | constructor].
  - destruct (isspace c) eqn:Hc.
    + destruct tok; [apply IH; reflexivity |].
      constructor; [split; [discriminate | exact Htok] | apply IH; reflexivity].
    + apply IH. unfold no_space in *. rewrite forallb_app, Htok. cbn.
      rewrite Hc. reflexivity.
Qed.

Lemma split_tokens (s : str) : Forall is_token (split s).
Proof. apply split_go_tokens. reflexivity. Qed.

Lemma split_go_run (tok t s : str) :
  no_space t = true -> split_go tok (t ++ s) = split_go (tok ++ t) s.
Proof.
  revert tok. induction t as [| c r IH]; intros tok; cbn [app no_space forallb].
  - rewrite app_nil_r. reflexivity.
  - intros [Hc Hr]%andb_true_iff. apply negb_true_iff in Hc.
    cbn [split_go]. rewrite Hc, (IH _ Hr), <- app_assoc. reflexivity.
Qed.

Lemma split_token (t : str) : is_token t -> split t = [t].
Proof.
  intros [Hne Hsp]. unfold split.
  rewrite <- (app_nil_r t) at 1. rewrite (split_go_run [] t [] Hsp).
  cbn. destruct t; [contradiction | reflexivity].
Qed.

(** Splitting what [join] made of tokens gives the tokens back. *)
Lemma split_join (words : list str) :
  Forall is_token words -> split (join space words) = words.
Proof.
  induction 1 as [| t rest Ht Hrest IH]; [reflexivity |].
  destruct rest as [| t' rest'].
  - cbn [join]. apply split_token, Ht.
  - change (join space (t :: t' :: rest'))
      with (t ++ space ++ join space (t' :: rest')).
    unfold split in *. destruct Ht as [Hne Hsp].
    rewrite (split_go_run [] t _ Hsp). cbn [app space split_go].
    change (isspace 32) with true. cbv iota.
    destruct t; [contradiction |]. rewrite IH. reflexivity.
Qed.

Lemma strip_ws_token (t : str) : no_space t = true -> strip_ws t = t.
Proof. apply strip_by_none. Qed.

Lemma normalize_token (t : str) :
  is_token t -> no_punct t = true -> normalize t = Ok t.
Proof.
  intros Ht Hp. unfold normalize, strip_punct.
  rewrite (strip_by_none is_punct t Hp), (split_token t Ht).
  apply getitem_0_cons.
Qed.

Lemma normalize_all_punct (t : str) :
  forallb is_punct t = true -> normalize t = Raise IndexError.
Proof.
  intros H. unfold normalize, strip_punct.
  rewrite (strip_by_all is_punct t H). apply getitem_nil.
Qed.

(** Leading and trailing punctuation does not change the key. *)
Lemma normalize_pad (p core q : str) :
  forallb is_punct p = true -> forallb is_punct q = true ->
  normalize (p ++ core ++ q) = normalize core.
Proof.
  intros Hp Hq. unfold normalize, strip_punct.
  rewrite (strip_by_pad is_punct p core q Hp Hq). reflexivity.
Qed.

(** [strip(punctuation)] leaves a word with bare ends as it is. *)
Lemma lstrip_by_head (drop : Z -> bool) (t : str) :
  match t with [] => true | c :: _ => negb (drop c) end = true ->
  lstrip_by drop t = t.
Proof.
  destruct t as [| c r]; [reflexivity |]. cbn [lstrip_by].
  intros H. apply negb_true_iff in H. rewrite H. reflexivity.
Qed.

Lemma strip_punct_bare (t : str) : bare t = true -> strip_punct t = t.
Proof.
  unfold bare. intros [Hhead Hlast]%andb_true_iff.
  unfold strip_punct, strip_by, rstrip_by.
  rewrite (lstrip_by_head is_punct t Hhead).
  rewrite (lstrip_by_head is_punct (rev t) Hlast). apply rev_involutive.
Qed.

Lemma strip_punct_padded (p core q : str) :
  forallb is_punct p = true -> forallb is_punct q = true ->
  bare core = true -> strip_punct (p ++ core ++ q) = core.
Proof.
  intros Hp Hq Hcore. unfold strip_punct.
  rewrite (strip_by_pad is_punct p core q Hp Hq). apply strip_punct_bare, Hcore.
Qed.

Lemma no_punct_bare (t : str) : no_punct t = true -> bare t = true.
Proof.
  intros H. unfold bare.
  assert (Hhead : forall u, no_punct u = true ->
            match u with [] => true | c :: _ => negb (is_punct c) end = true).
  { intros [| c r]; [reflexivity |]. cbn. intros [Hc _]%andb_true_iff. exact Hc. }
  rewrite (Hhead t H), Hhead; [reflexivity |].
  unfold no_punct. rewrite forallb_rev. exact H.
Qed.

(** The key of a padded word is its core. *)
Lemma normalize_padded (p core q : str) :
  forallb is_punct p = true -> forallb is_punct q = true ->
  is_token core -> bare core = true ->
  normalize (p ++ core ++ q) = Ok core.
Proof.
  intros Hp Hq Htok Hcore. unfold normalize.
  rewrite (strip_punct_padded p core q Hp Hq Hcore), (split_token core Htok).
  apply getitem_0_cons.
Qed.

(** A song whose name opens with a word in punctuation is decoded to
    that word. *)
Lemma decode_first_word_step_padded (words : list str) (song : Song)
    (p word q : str) :
  forallb is_punct p = true -> forallb is_punct q = true ->
  word <> [] -> bare word = true ->
  getitem (split (name song)) 0 = Ok (p ++ word ++ q) ->
  decode_first_word_step words song = Ok (words ++ [word]).
Proof.
  intros Hp Hq Hne Hbare Hlead. unfold decode_first_word_step.
  destruct (name song) as [| c r] eqn:Hname; [discriminate |].
  rewrite Hlead. cbn [mbind result_bind].
  rewrite (strip_punct_padded p word q Hp Hq Hbare).
  destruct word; [contradiction | reflexivity].
Qed.

Lemma decode_first_word_loop_padded (songs : list Song) (words acc : list str) :
  Forall2 (fun word song =>
             word <> [] /\ bare word = true /\
             exists p q,
               forallb is_punct p = true /\ forallb is_punct q = true /\
               getitem (split (name song)) 0 = Ok (p ++ word ++ q))
    words songs ->
  decode_first_word_loop songs acc = Ok (acc ++ words).
Proof.
  intros H. revert acc.
  induction H as [| word song ws ss (Hne & Hbare & p & q & Hp & Hq & Hl) _ IH];
    intros acc.
  - cbn. rewrite app_nil_r. reflexivity.
  - cbn [decode_first_word_loop].
    rewrite (decode_first_word_step_padded _ _ p word q Hp Hq Hne Hbare Hl).
    cbn. rewrite IH, <- app_assoc. reflexivity.
Qed.

(** ** The resolver and the First-Word encoding *)

Section FirstWordFacts.
Variable draws : nat -> nat.
Variable sp_search : nat -> str -> option (list Song).
Variable lower : str -> str.

Lemma resolve_normalize_error (word : str) (e : exn) (w : world) :
  normalize word = Raise e ->
  get_song_from_first_word draws sp_search lower word w = (w, Raise e).
Proof.
  intros H. unfold get_song_from_first_word.
  rewrite M_bind_unfold. unfold lift at 1. rewrite H. reflexivity.
Qed.

Lemma first_word_loop_app (pre rest : list str) (acc : list Song) (w : world) :
  first_word_loop draws sp_search lower (pre ++ rest) acc w =
    match first_word_loop draws sp_search lower pre acc w with
    | (w1, Ok songs) => first_word_loop draws sp_search lower rest songs w1
    | (w1, Raise e) => (w1, Raise e)
    end.
Proof.
  revert acc w. induction pre as [| word pre IH]; intros acc w;
    cbn [app first_word_loop]; [reflexivity |].
  rewrite !M_bind_unfold.
  destruct (get_song_from_first_word draws sp_search lower (strip_ws word) w)
    as [w1 [[s |] | e]]; [apply IH | reflexivity | reflexivity].
Qed.

(** One song per word. *)
Lemma first_word_loop_length (words : list str) (acc songs : list Song)
    (w w' : world) :
  first_word_loop draws sp_search lower words acc w = (w', Ok songs) ->
  length songs = (length acc + length words)%nat.
Proof.
  revert acc w. induction words as [| word rest IH]; intros acc w;
    cbn [first_word_loop].
  - intros [= <- <-]. cbn. lia.
  - rewrite M_bind_unfold.
    destruct (get_song_from_first_word draws sp_search lower (strip_ws word) w)
      as [w1 [[s |] | e]]; try discriminate.
    intros H. apply IH in H. rewrite H, length_app. cbn. lia.
Qed.

(** C10: a token made of punctuation characters only has no key
    ([strip] leaves the empty string, whose [split()[0]] raises
    [IndexError]); the resolver raises on it in every world, and the
    First-Word encoding of a message whose earlier words resolve raises
    [IndexError] at that token: it neither reports a resolution failure
    nor skips the token. *)
Theorem punctuation_token_crash (message : str) (pre post : list str)
    (tok : str) (w w1 : world) (songs : list Song) :
  split message = pre ++ tok :: post ->
  forallb is_punct tok = true ->
  first_word_loop draws sp_search lower pre [] w = (w1, Ok songs) ->
  strip_punct tok = [] /\
  normalize tok = Raise IndexError /\
  (forall w0, get_song_from_first_word draws sp_search lower tok w0
              = (w0, Raise IndexError)) /\
  get_first_word_encoding_songs draws sp_search lower message w
  = (w1, Raise IndexError).
Proof.
  intros Hsplit Hpunct Hpre.
  pose proof (normalize_all_punct tok Hpunct) as Hnorm.
  split; [apply strip_by_all, Hpunct |].
  split; [exact Hnorm |]. split.
  - intros w0. apply resolve_normalize_error, Hnorm.
  - unfold get_first_word_encoding_songs.
    rewrite Hsplit, first_word_loop_app, Hpre.
    cbn [first_word_loop]. rewrite M_bind_unfold.
    rewrite (strip_ws_token tok (all_punct_no_space tok Hpunct)).
    rewrite (resolve_normalize_error tok IndexError w1 Hnorm). reflexivity.
Qed.

(** What the encoding loop does by design: the first word for which the
    resolver finds nothing ends the encoding with a failure that names
    the word, and no playlist is returned. *)
Lemma first_word_loop_not_found (pre rest : list str) (word : str)
    (w w1 w2 : world) (songs : list Song) :
  first_word_loop draws sp_search lower pre [] w = (w1, Ok songs) ->
  get_song_from_first_word draws sp_search lower (strip_ws word) w1
  = (w2, Ok None) ->
  first_word_loop draws sp_search lower (pre ++ word :: rest) [] w
  = (w2, Raise (ResolutionFailureWord word)).
Proof.
  intros Hpre Hword. rewrite first_word_loop_app, Hpre.
  cbn [first_word_loop]. rewrite M_bind_unfold, Hword. reflexivity.
Qed.

(** C8: the message made of three exclamation marks has one word, for
    which no song can be resolved; its First-Word encoding raises
    [IndexError] where a resolution failure naming the word is due. *)
Theorem first_word_encoding_punctuation_message (w : world) :
  get_first_word_encoding_songs draws sp_search lower (lit "!!!") w
  = (w, Raise IndexError).
Proof. reflexivity. Qed.

Lemma resolver_run_loop (words : list str) (songs acc : list Song)
    (w w' : world) :
  resolver_run draws sp_search lower w words songs w' ->
  first_word_loop draws sp_search lower words acc w = (w', Ok (acc ++ songs)).
Proof.
  intros H. revert acc.
  induction H as [w | w w1 w2 word words song songs Hword _ IH]; intros acc.
  - cbn. rewrite app_nil_r. reflexivity.
  - cbn [first_word_loop]. rewrite M_bind_unfold, Hword, IH, <- app_assoc.
    reflexivity.
Qed.

(** C2: for a message of punctuation-free words, when the resolver
    returns for each word in turn a song whose name has that word as its
    leading word, that is, whose name opens with the word, possibly
    between punctuation characters, the First-Word encoding returns these
    songs, and decoding them gives the words of the message joined by
    single spaces, a text whose word sequence is the message's. *)
Theorem first_word_roundtrip (message : str) (w w' : world)
    (songs : list Song) :
  Forall (fun word => no_punct word = true) (split message) ->
  resolver_run draws sp_search lower w (split message) songs w' ->
  Forall2 (fun word song =>
             exists p q,
               forallb is_punct p = true /\ forallb is_punct q = true /\
               getitem (split (name song)) 0 = Ok (p ++ word ++ q))
    (split message) songs ->
  get_first_word_encoding_songs draws sp_search lower message w
  = (w', Ok songs) /\
  decode_first_word_encoding songs = Ok (join space (split message)) /\
  split (join space (split message)) = split message.
Proof.
  intros Hpunct Hrun Hlead.
  split; [apply (resolver_run_loop _ _ [] _ _ Hrun) |].
  split; [| apply split_join, split_tokens].
  unfold decode_first_word_encoding.
  rewrite (decode_first_word_loop_padded songs (split message) []);
    [reflexivity |].
  clear Hrun. pose proof (split_tokens message) as Htoks.
  induction Hlead as [| word song ws ss Hl _ IH]; constructor.
  - inversion Hpunct; subst. inversion Htoks; subst.
    split; [match goal with H : is_token word |- _ => apply H end |].
    split; [apply no_punct_bare; assumption | exact Hl].
  - apply IH; [inversion Hpunct | inversion Htoks]; assumption.
Qed.

(** C9: from an empty cache, a resolution that succeeds sends one query
    to the catalog search and stores every matching candidate under the
    word's key; resolving the word again is answered from that entry:
    the search log and the cache are unchanged, and the song is one of
    the stored candidates. *)
Theorem resolve_twice_one_search (word : str) (w w1 : world) (s1 : Song) :
  default ∅ (cache_file w) = ∅ ->
  get_song_from_first_word draws sp_search lower word w = (w1, Ok (Some s1)) ->
  exists key items candidates,
    normalize word = Ok key /\
    sp_search (length (search_log w)) (quoted key) = Some items /\
    filter_result (leading_word_matches lower key) items = Ok candidates /\
    search_log w1 = search_log w ++ [quoted key] /\
    cache_file w1 = Some (<[key := candidates]> ∅) /\
    In s1 candidates /\
    exists s2 w2,
      get_song_from_first_word draws sp_search lower word w1
      = (w2, Ok (Some s2)) /\
      search_log w2 = search_log w1 /\
      cache_file w2 = cache_file w1 /\
      In s2 candidates.
Proof.
  intros Hempty. unfold get_song_from_first_word at 1.
  rewrite M_bind_unfold. unfold lift at 1.
  destruct (normalize word) as [key |] eqn:Hkey; [| discriminate].
  rewrite M_bind_unfold. unfold load_song_cache at 1.
  destruct (cache_cut w) eqn:Hcut; [discriminate |].
  rewrite Hempty.
  rewrite lookup_empty. rewrite M_bind_unfold. unfold search at 1.
  destruct (sp_search (length (search_log w)) (quoted key)) as [items |] eqn:Hsp;
    [| discriminate].
  rewrite M_bind_unfold. unfold lift at 1.
  destruct (filter_result (leading_word_matches lower key) items)
    as [[| c cs] | e] eqn:Hfilter; try discriminate.
  rewrite M_bind_unfold. unfold save_song_cache at 1.
  destruct (cache_encodable (<[key:=c :: cs]> ∅)) eqn:Hsave; [| discriminate].
  cbn [cache_file cache_cut rand_pos search_log].
  rewrite M_bind_unfold.
  destruct (random_choice draws (c :: cs) _) as [wc [x |]] eqn:Hch; [| discriminate].
  intros [= <- <-].
  pose proof (random_choice_cut draws _ _ _ _ Hch) as Hcutc.
  apply random_choice_in in Hch as (Hin & Hcache & Hlog).
  cbn [cache_file cache_cut search_log] in Hcache, Hlog, Hcutc.
  exists key, items, (c :: cs). repeat (split; [assumption || reflexivity |]).
  unfold get_song_from_first_word.
  rewrite M_bind_unfold. unfold lift at 1. rewrite Hkey.
  rewrite M_bind_unfold. unfold load_song_cache at 1. rewrite Hcutc, Hcache.
  cbn [default from_option id]. rewrite lookup_insert_eq. rewrite M_bind_unfold.
  destruct (random_choice draws (c :: cs) wc) as [w2 [s2 |]] eqn:Hch2.
  - apply random_choice_in in Hch2 as (Hin2 & Hcache2 & Hlog2).
    exists s2, w2. repeat split; [assumption | congruence | assumption].
  - destruct (random_choice_nonempty draws c cs wc) as [y Hy]. congruence.
Qed.

(** C4, as amended: the key of a word is the word without its leading
    and trailing punctuation, letter case kept: two words that differ
    in such punctuation only have the same key, which is the core itself
    for every token with no punctuation at its ends, whatever punctuation
    stands inside it.  Search results are matched against a key without
    regard to letter case and to the punctuation around the candidate's
    leading word: a candidate whose name opens with the padded core is
    kept exactly when the core and the key are equal once both are
    lower-cased; so keys that differ in case only select the same
    candidates. *)
Theorem normalize_strips_punctuation_keeps_case (p1 q1 p2 q2 core : str) :
  forallb is_punct p1 = true -> forallb is_punct q1 = true ->
  forallb is_punct p2 = true -> forallb is_punct q2 = true ->
  normalize (p1 ++ core ++ q1) = normalize (p2 ++ core ++ q2) /\
  (is_token core -> bare core = true ->
   normalize (p1 ++ core ++ q1) = Ok core) /\
  (forall key item,
      bare core = true ->
      getitem (split (name item)) 0 = Ok (p1 ++ core ++ q1) ->
      leading_word_matches lower key item
      = Ok (bool_decide (lower core = lower key))) /\
  (forall key1 key2 items,
      lower key1 = lower key2 ->
      filter_result (leading_word_matches lower key1) items
      = filter_result (leading_word_matches lower key2) items).
Proof.
  intros Hp1 Hq1 Hp2 Hq2.
  split; [rewrite !normalize_pad by assumption; reflexivity |].
  split; [apply normalize_padded; assumption |].
  split.
  - intros key item Hcore Hlead. unfold leading_word_matches.
    rewrite Hlead. cbn [mbind result_bind].
    rewrite (strip_punct_padded p1 core q1 Hp1 Hq1 Hcore). reflexivity.
  - intros key1 key2 items Hkeys.
    induction items as [| item rest IH]; [reflexivity |].
    cbn [filter_result]. rewrite IH. unfold leading_word_matches.
    rewrite Hkeys. reflexivity.
Qed.

End FirstWordFacts.

(** * Further properties of the sender *)

Section ResolverFacts.
Variable draws : nat -> nat.
Variable sp_search : nat -> str -> option (list Song).
Variable lower : str -> str.

(** Every call of the resolver goes one of the ways of [resolved]. *)
Lemma resolve_inv (word : str) (w w' : world) (r : result (option Song)) :
  get_song_from_first_word draws sp_search lower word w = (w', r) ->
  resolved sp_search lower word w w' r.
Proof.
  unfold get_song_from_first_word. rewrite M_bind_unfold. unfold lift at 1.
  destruct (normalize word) as [key | e] eqn:Hkey;
    [| intros [= <- <-]; apply resolved_no_key, Hkey].
  rewrite M_bind_unfold. unfold load_song_cache at 1.
  destruct (cache_cut w) eqn:Hcut;
    [intros [= <- <-]; apply (resolved_unreadable _ _ _ _ key); assumption |].
  assert (Hcache : default ∅ (cache_file w) = cache_of w)
    by (unfold cache_of; rewrite Hcut; reflexivity).
  rewrite Hcache. clear Hcache.
  assert (Hmiss_case :
    cache_miss w key ->
    (search sp_search (quoted key) ≫= λ results,
       match results with
       | Some items =>
           lift (filter_result (leading_word_matches lower key) items)
           ≫= λ songs,
             match songs with
             | [] => mret None
             | _ :: _ =>
                 save_song_cache (<[key:=songs]> (cache_of w))
                 ≫= λ _, random_choice draws songs
                          ≫= λ song, mret (Some song)
             end
       | None => mret None
       end) w = (w', r) ->
    resolved sp_search lower word w w' r).
  { intros Hmiss. rewrite M_bind_unfold. unfold search at 1.
    destruct (sp_search (length (search_log w)) (quoted key)) as [items |] eqn:Hsp;
      [| intros [= <- <-]; apply (resolved_falsy _ _ _ _ key); assumption].
    rewrite M_bind_unfold. unfold lift at 1.
    destruct (filter_result (leading_word_matches lower key) items)
      as [[| c cs] | e] eqn:Hfilter.
    - intros [= <- <-]. apply (resolved_no_match _ _ _ _ key items); assumption.
    - rewrite M_bind_unfold. unfold save_song_cache at 1.
      destruct (cache_encodable (<[key:=c :: cs]> (cache_of w))) eqn:Hsave.
      + cbn [cache_file cache_cut rand_pos search_log].
        rewrite M_bind_unfold.
        destruct (random_choice_nonempty draws c cs
                    (mkWorld (Some (<[key:=c :: cs]> (cache_of w))) false
                       (rand_pos w) (search_log w ++ [quoted key]))) as [s Hs].
        rewrite Hs. cbn [cache_file cache_cut rand_pos search_log].
        apply random_choice_in in Hs as [Hin _].
        intros [= <- <-].
        apply (resolved_found _ _ _ _ key items c cs s); assumption.
      + cbn [cache_file cache_cut rand_pos search_log]. intros [= <- <-].
        apply (resolved_save_failed _ _ _ _ key items c cs); assumption.
    - intros [= <- <-].
      apply (resolved_filter_error _ _ _ _ key items e); assumption. }
  destruct (cache_of w !! key) as [[| c cs] |] eqn:Hlook.
  - apply Hmiss_case. split; [exact Hcut | right; exact Hlook].
  - rewrite M_bind_unfold.
    destruct (random_choice_nonempty draws c cs w) as [s Hs]. rewrite Hs.
    apply random_choice_in in Hs as [Hin _].
    intros [= <- <-].
    apply (resolved_hit _ _ _ _ key c cs s); assumption.
  - apply Hmiss_case. split; [exact Hcut | left; exact Hlook].
Qed.

Lemma normalize_same_key (word key key' : str) :
  normalize word = Ok key -> normalize word = Ok key' -> key = key'.
Proof. congruence. Qed.

Lemma cache_of_entry_readable (w : world) (key : str) (songs : list Song) :
  cache_of w !! key = Some songs -> cache_cut w = false.
Proof.
  unfold cache_of. destruct (cache_cut w); [| reflexivity].
  rewrite lookup_empty. discriminate.
Qed.

Lemma cache_hit_not_miss (w : world) (key : str) (c : Song) (cs : list Song) :
  cache_of w !! key = Some (c :: cs) -> ~ cache_miss w key.
Proof. intros H [_ [Hm | Hm]]; congruence. Qed.

(** X1: a cache hit is served from the cache alone: when the key of the
    word has a non-empty entry, the resolver returns one of the songs of
    that entry, sends no query to the catalog search and leaves the cache
    file as it is. *)
Theorem cache_hit_sends_no_query (word key : str) (c : Song) (cs : list Song)
    (w w' : world) (r : result (option Song)) :
  normalize word = Ok key ->
  cache_of w !! key = Some (c :: cs) ->
  get_song_from_first_word draws sp_search lower word w = (w', r) ->
  (exists s, r = Ok (Some s) /\ In s (c :: cs)) /\
  search_log w' = search_log w /\
  cache_file w' = cache_file w.
Proof.
  intros Hkey Hentry Hres. apply resolve_inv in Hres.
  pose proof (cache_of_entry_readable _ _ _ Hentry) as Hread.
  pose proof (cache_hit_not_miss _ _ _ _ Hentry) as Hnomiss.
  destruct Hres as [e He | key' Hk Hcut | key' c' cs' s Hk Hhit Hin | key' Hk Hm _
                   | key' items e Hk Hm _ _
                   | key' items Hk Hm _ _
                   | key' items c' cs' s Hk Hm _ _ _ _
                   | key' items c' cs' Hk Hm _ _ _];
    try congruence;
    try (pose proof (normalize_same_key _ _ _ Hkey Hk); subst key'; contradiction).
  pose proof (normalize_same_key _ _ _ Hkey Hk); subst key'.
  rewrite Hentry in Hhit. injection Hhit as <- <-.
  split; [exists s; auto |]. split; reflexivity.
Qed.




Lemma leading_word_matches_true (key : str) (s : Song) :
  leading_word_matches lower key s = Ok true -> matches_key lower key s.
Proof.
  unfold leading_word_matches, matches_key.
  destruct (getitem (split (name s)) 0) as [tok |]; cbn; [| discriminate].
  intros [= H]. apply bool_decide_eq_true in H. eauto.
Qed.

Lemma resolve_keeps_cache_wf (word : str) (w w' : world)
    (r : result (option Song)) :
  cache_wf lower (cache_of w) ->
  get_song_from_first_word draws sp_search lower word w = (w', r) ->
  cache_wf lower (cache_of w') /\
  forall s, r = Ok (Some s) ->
    exists key, normalize word = Ok key /\ matches_key lower key s.
Proof.
  intros Hwf Hres. apply resolve_inv in Hres.
  destruct Hres as [e He | key Hk Hcut | key c cs s Hk Hhit Hin | key Hk Hm _
                   | key items e Hk Hm _ _
                   | key items Hk Hm _ _
                   | key items c cs s Hk Hm _ Hfilter _ Hin
                   | key items c cs Hk Hm _ _ _];
    try (split; [exact Hwf | intros s0; discriminate]).
  - split; [exact Hwf |]. intros s0 [= <-]. exists key. split; [exact Hk |].
    specialize (Hwf key _ Hhit). rewrite Forall_forall in Hwf.
    apply Hwf, list_elem_of_In, Hin.
  - assert (Hnew : Forall (matches_key lower key) (c :: cs)).
    { apply Forall_forall. intros x Hx. apply list_elem_of_In in Hx.
      destruct (filter_result_ok _ _ _ Hfilter x Hx) as [_ Hmatch].
      apply leading_word_matches_true, Hmatch. }
    split.
    + unfold cache_of at 1. cbn [cache_file cache_cut default from_option id].
      intros k songs Hlook. destruct (decide (key = k)) as [<- | Hne].
      * rewrite lookup_insert_eq in Hlook. injection Hlook as <-. exact Hnew.
      * rewrite lookup_insert_ne in Hlook by exact Hne. eapply Hwf, Hlook.
    + intros s0 [= <-]. exists key. split; [exact Hk |].
      rewrite Forall_forall in Hnew. apply Hnew, list_elem_of_In, Hin.
  - split; [| intros s0; discriminate].
    unfold cache_of. cbn [cache_file cache_cut]. intros k songs.
    rewrite lookup_empty. discriminate.
Qed.



Lemma resolve_queries (word : str) (w w' : world) (r : result (option Song)) :
  get_song_from_first_word draws sp_search lower word w = (w', r) ->
  (length (search_log w) <= length (search_log w') <= S (length (search_log w)))%nat.
Proof.
  intros Hres. apply resolve_inv in Hres.
  destruct Hres; cbn [logged drawn search_log]; rewrite ?length_app; cbn; lia.
Qed.

(** X4: the First-Word encoding sends at most one catalog query per word
    of the message, and never removes one from the log. *)
Theorem encoding_queries_bound (message : str) (w w' : world)
    (r : result (list Song)) :
  get_first_word_encoding_songs draws sp_search lower message w = (w', r) ->
  (length (search_log w) <= length (search_log w')
   <= length (search_log w) + length (split message))%nat.
Proof.
  unfold get_first_word_encoding_songs. generalize (@nil Song) as acc.
  generalize (split message) as words. intros words. revert w.
  induction words as [| word rest IH]; intros w acc; cbn [first_word_loop].
  - intros [= <- <-]. cbn. lia.
  - rewrite M_bind_unfold.
    destruct (get_song_from_first_word draws sp_search lower (strip_ws word) w)
      as [w1 r1] eqn:Hword.
    apply resolve_queries in Hword.
    destruct r1 as [[s |] | e].
    + intros H. apply IH in H. cbn [length]. lia.
    + intros [= <- <-]. cbn [length]. lia.
    + intros [= <- <-]. cbn [length]. lia.
Qed.

End ResolverFacts.

(** ** The First-Word round trip up to letter case *)

Lemma forallb_lstrip_by (p drop : Z -> bool) (s : str) :
  forallb p s = true -> forallb p (lstrip_by drop s) = true.
Proof.
  induction s as [| c r IH]; cbn [lstrip_by forallb]; [reflexivity |].
  intros H. destruct (drop c); [| exact H].
  apply andb_true_iff in H as [_ Hr]. auto.
Qed.

Lemma forallb_strip_by (p drop : Z -> bool) (s : str) :
  forallb p s = true -> forallb p (strip_by drop s) = true.
Proof.
  intros H. unfold strip_by, rstrip_by.
  rewrite forallb_rev. apply forallb_lstrip_by. rewrite forallb_rev.
  apply forallb_lstrip_by, H.
Qed.

Section CaseRoundTrip.
Variable draws : nat -> nat.
Variable sp_search : nat -> str -> option (list Song).
Variable lower : str -> str.

(** With a well-formed cache, the songs the loop appends belong under the
    keys of the words they were resolved for. *)
Lemma first_word_loop_songs (words : list str) (acc songs : list Song)
    (w w' : world) :
  cache_wf lower (cache_of w) ->
  first_word_loop draws sp_search lower words acc w = (w', Ok songs) ->
  exists new, songs = acc ++ new /\
    Forall2 (fun word s => exists key,
               normalize (strip_ws word) = Ok key /\ matches_key lower key s)
      words new.
Proof.
  revert acc w. induction words as [| word rest IH]; intros acc w Hwf;
    cbn [first_word_loop].
  - intros [= <- <-]. exists []. rewrite app_nil_r. split; constructor.
  - rewrite M_bind_unfold.
    destruct (get_song_from_first_word draws sp_search lower (strip_ws word) w)
      as [w1 r1] eqn:Hword.
    destruct (resolve_keeps_cache_wf draws _ _ _ _ _ _ Hwf Hword) as [Hwf1 Hsong].
    destruct r1 as [[s |] | e]; try discriminate.
    intros H. destruct (IH _ _ Hwf1 H) as (new & -> & Hnew).
    exists (s :: new). split; [rewrite <- app_assoc; reflexivity |].
    constructor; [apply Hsong; reflexivity | exact Hnew].
Qed.

(** A song that belongs under a word is decoded to a word that equals it
    up to letter case. *)
Lemma decode_first_word_step_matching (acc : list str) (word : str) (s : Song) :
  lower [] = [] -> (forall t, lower t = [] -> t = []) ->
  word <> [] ->
  matches_key lower word s ->
  exists d, decode_first_word_step acc s = Ok (acc ++ [d]) /\
            lower d = lower word /\ is_token d.
Proof.
  intros Hnil Hnonempty Hword (tok & Htok & Hlow).
  unfold decode_first_word_step.
  destruct (getitem_0_ok _ _ Htok) as [toks Hsplit].
  assert (Hname : name s <> []) by (intros Hn; rewrite Hn in Hsplit; discriminate).
  assert (Htoken : is_token tok).
  { pose proof (split_tokens (name s)) as H. rewrite Hsplit in H.
    inversion H; assumption. }
  assert (Hd : strip_punct tok <> []).
  { intros Hd. rewrite Hd, Hnil in Hlow. symmetry in Hlow.
    apply Hnonempty in Hlow. contradiction. }
  destruct (name s) as [| c r]; [contradiction |].
  rewrite Htok. cbn [mbind result_bind].
  exists (strip_punct tok).
  destruct (strip_punct tok) as [| d ds] eqn:Hstrip; [contradiction |].
  split; [reflexivity |]. split; [exact Hlow |].
  split; [discriminate |]. rewrite <- Hstrip.
  apply forallb_strip_by. apply Htoken.
Qed.

(** X5: with a well-formed cache, the First-Word scheme is a round trip
    up to letter case: when the encoding of a message of punctuation-free
    words returns a playlist, decoding that playlist returns a text with
    as many words as the message, each equal to the message's word at its
    position once both are lower-cased. *)
Theorem first_word_roundtrip_up_to_case (message : str) (w w' : world)
    (songs : list Song) :
  lower [] = [] -> (forall t, lower t = [] -> t = []) ->
  cache_wf lower (cache_of w) ->
  Forall (fun word => no_punct word = true) (split message) ->
  get_first_word_encoding_songs draws sp_search lower message w
  = (w', Ok songs) ->
  exists text,
    decode_first_word_encoding songs = Ok text /\
    Forall2 (fun word d => lower d = lower word) (split message) (split text).
Proof.
  intros Hnil Hnonempty Hwf Hpunct Hrun.
  unfold get_first_word_encoding_songs in Hrun.
  apply first_word_loop_songs in Hrun as (new & -> & Hnew); [| exact Hwf].
  cbn [app].
  assert (Hdec : forall acc, exists ds,
             decode_first_word_loop new acc = Ok (acc ++ ds) /\
             Forall2 (fun word d => lower d = lower word) (split message) ds /\
             Forall is_token ds).
  { pose proof (split_tokens message) as Htoks.
    induction Hnew as [| word s words ss (key & Hkey & Hmatch) _ IH]; intros acc.
    - exists []. rewrite app_nil_r. repeat constructor.
    - inversion Hpunct as [| ? ? Hp Hps]; subst.
      inversion Htoks as [| ? ? Ht Hts]; subst.
      rewrite (strip_ws_token word (proj2 Ht)) in Hkey.
      rewrite (normalize_token word Ht Hp) in Hkey. injection Hkey as <-.
      destruct (decode_first_word_step_matching acc word s Hnil Hnonempty
                  (proj1 Ht) Hmatch) as (d & Hstep & Hlow & Hd).
      destruct (IH Hps Hts (acc ++ [d])) as (ds & Hloop & Hlows & Hds).
      exists (d :: ds). cbn [decode_first_word_loop]. rewrite Hstep. cbn.
      rewrite Hloop, <- app_assoc. repeat split; constructor; assumption. }
  destruct (Hdec []) as (ds & Hloop & Hlows & Hds).
  exists (join space ds). unfold decode_first_word_encoding.
  rewrite Hloop. cbn. split; [reflexivity |].
  rewrite (split_join ds Hds). exact Hlows.
Qed.

End CaseRoundTrip.

(** ** Further properties of the two schemes *)

Lemma split_go_pending (tok s : str) : tok <> [] -> split_go tok s <> [].
Proof.
  revert tok. induction s as [| c r IH]; intros tok Htok; cbn [split_go].
  - destruct tok; [contradiction | discriminate].
  - destruct (isspace c).
    + destruct tok; [contradiction | discriminate].
    + apply IH. destruct tok; discriminate.
Qed.

(** [split] finds no word exactly in the strings made of whitespace. *)
Lemma split_nil_iff (s : str) : split s = [] <-> forallb isspace s = true.
Proof.
  unfold split. split; [| apply split_go_blank].
  induction s as [| c r IH]; cbn [split_go forallb]; [reflexivity |].
  destruct (isspace c) eqn:Hc; cbn [andb]; [exact IH |].
  intros H. exfalso. revert H. apply split_go_pending. discriminate.
Qed.

Lemma lstrip_by_nil_iff (drop : Z -> bool) (s : str) :
  lstrip_by drop s = [] <-> forallb drop s = true.
Proof.
  split; [| apply lstrip_by_all].
  induction s as [| c r IH]; cbn [lstrip_by forallb]; [reflexivity |].
  destruct (drop c); cbn [andb]; [exact IH | discriminate].
Qed.

(** [strip] leaves nothing exactly of the strings made of dropped
    characters. *)
Lemma strip_by_nil_iff (drop : Z -> bool) (s : str) :
  strip_by drop s = [] <-> forallb drop s = true.
Proof.
  split; [| apply strip_by_all].
  unfold strip_by, rstrip_by. intros H.
  apply (f_equal (@rev Z)) in H. rewrite rev_involutive in H. cbn in H.
  apply lstrip_by_nil_iff in H. rewrite forallb_rev in H.
  destruct (lstrip_by drop s) as [| c u] eqn:Hl.
  - apply lstrip_by_nil_iff, Hl.
  - exfalso.
    assert (Hc : drop c = false).
    { clear H. induction s as [| x r IH]; cbn [lstrip_by] in Hl; [discriminate |].
      destruct (drop x) eqn:Hx; [apply IH, Hl |]. injection Hl as -> _. exact Hx. }
    cbn [forallb] in H. rewrite Hc in H. discriminate.
Qed.

(** The decoded words, as a function of the playlist: the stripped
    leading word of each name, where there is one. *)
Lemma decode_first_word_step_named (acc : list str) (s : Song) :
  name s = [] \/ forallb isspace (name s) = false ->
  exists ds, decode_first_word_step acc s = Ok (acc ++ ds) /\
             (length ds <= 1)%nat /\ Forall is_token ds.
Proof.
  intros Hname. unfold decode_first_word_step.
  destruct (name s) as [| c r] eqn:Hn.
  - exists []. rewrite app_nil_r. repeat constructor.
  - destruct Hname as [Hname | Hname]; [discriminate |].
    destruct (split (c :: r)) as [| tok toks] eqn:Hsplit.
    + apply split_nil_iff in Hsplit. congruence.
    + rewrite getitem_0_cons. cbn [mbind result_bind].
      assert (Htok : is_token tok).
      { pose proof (split_tokens (c :: r)) as H. rewrite Hsplit in H.
        inversion H; assumption. }
      destruct (strip_punct tok) as [| d ds] eqn:Hstrip.
      * exists []. rewrite app_nil_r. repeat constructor.
      * exists [d :: ds]. split; [reflexivity |]. split; [cbn; lia |].
        constructor; [| constructor]. split; [discriminate |].
        rewrite <- Hstrip. apply forallb_strip_by, Htok.
Qed.

Lemma name_blank_or_not (s : Song) :
  (name s = [] \/ forallb isspace (name s) = false) \/
  (name s <> [] /\ forallb isspace (name s) = true).
Proof.
  destruct (name s) as [| c r]; [left; left; reflexivity |].
  destruct (forallb isspace (c :: r)); [right | left; right; reflexivity].
  split; [discriminate | reflexivity].
Qed.

(** X6: the First-Word decoding returns exactly for the playlists in
    which every name is empty or holds a character that is not
    whitespace (it raises [IndexError] for the others), and the text it
    returns has at most one word per song. *)
Theorem decode_first_word_returns_iff (songs : list Song) :
  ((exists text, decode_first_word_encoding songs = Ok text) <->
   Forall (fun s => name s = [] \/ forallb isspace (name s) = false) songs)
  /\
  (forall text, decode_first_word_encoding songs = Ok text ->
     (length (split text) <= length songs)%nat).
Proof.
  assert (Hok : Forall (fun s => name s = [] \/ forallb isspace (name s) = false)
                  songs ->
                forall acc, exists ds,
                  decode_first_word_loop songs acc = Ok (acc ++ ds) /\
                  (length ds <= length songs)%nat /\ Forall is_token ds).
  { induction 1 as [| s rest Hs _ IH]; intros acc.
    - exists []. rewrite app_nil_r. repeat constructor.
    - destruct (decode_first_word_step_named acc s Hs) as (d & Hstep & Hlen & Hd).
      destruct (IH (acc ++ d)) as (ds & Hloop & Hlens & Hds).
      exists (d ++ ds). cbn [decode_first_word_loop]. rewrite Hstep. cbn.
      rewrite Hloop, <- app_assoc. split; [reflexivity |].
      split; [rewrite length_app; cbn [length]; lia |].
      apply Forall_app. split; assumption. }
  assert (Hcases :
            Forall (fun s => name s = [] \/ forallb isspace (name s) = false) songs
            \/ decode_first_word_encoding songs = Raise IndexError).
  { assert (H : Forall (fun s => name s = [] \/ forallb isspace (name s) = false)
                  songs
                \/ Exists (fun s => name s <> [] /\ forallb isspace (name s) = true)
                     songs).
    { clear Hok. induction songs as [| s rest IH]; [left; constructor |].
      destruct (name_blank_or_not s) as [Hs | Hs].
      - destruct IH as [IH | IH]; [left; constructor; assumption |].
        right. apply Exists_cons_tl, IH.
      - right. apply Exists_cons_hd, Hs. }
    destruct H as [H | H]; [left; exact H |].
    right. apply decode_first_word_blank_name, H. }
  split; [split |].
  - intros [text Htext]. destruct Hcases as [Hall | Hbad]; [exact Hall |].
    rewrite Hbad in Htext. discriminate.
  - intros Hall. destruct (Hok Hall []) as (ds & Hloop & _ & _).
    exists (join space ds). unfold decode_first_word_encoding.
    rewrite Hloop. reflexivity.
  - intros text Htext. destruct Hcases as [Hall | Hbad].
    + destruct (Hok Hall []) as (ds & Hloop & Hlen & Hds).
      unfold decode_first_word_encoding in Htext. rewrite Hloop in Htext.
      cbn in Htext. injection Htext as <-. rewrite (split_join ds Hds). exact Hlen.
    + rewrite Hbad in Htext. discriminate.
Qed.

Lemma utf8_encode_length (s : str) (b : bytes) :
  utf8_encode s = Ok b ->
  (length s <= length b <= 4 * length s)%nat.
Proof.
  revert b. induction s as [| c r IH]; intros b; cbn [utf8_encode].
  - intros [= <-]. cbn. lia.
  - destruct (utf8_encode_char c) as [bc |] eqn:Hc; cbn; [| discriminate].
    destruct (utf8_encode r) as [br |] eqn:Hr; cbn; [| discriminate].
    intros [= <-]. specialize (IH br eq_refl). rewrite length_app.
    assert (1 <= length bc <= 4)%nat.
    { unfold utf8_encode_char in Hc.
      repeat match type of Hc with
             | (if ?t then _ else _) = _ => destruct t
             end; try discriminate; injection Hc as <-; cbn; lia. }
    cbn [length]. lia.
Qed.

Lemma hexdigit_inj (a b : Z) :
  0 <= a < 16 -> 0 <= b < 16 -> hexdigit a = hexdigit b -> a = b.
Proof.
  intros Ha Hb H.
  destruct (hexdigit_spec a Ha) as [Hva _].
  destruct (hexdigit_spec b Hb) as [Hvb _]. congruence.
Qed.

Section HexEncodingFacts.
Variable draws : nat -> nat.
Variable dataset : list Row.

Lemma hex_loop_world (i j : Z) (byte_list : list str) (acc : list Song)
    (w w' : world) (r : result (list Song)) :
  hex_loop draws dataset i j byte_list acc w = (w', r) ->
  cache_file w' = cache_file w /\ search_log w' = search_log w.
Proof.
  revert acc w. induction byte_list as [| byte rest IH]; intros acc w;
    cbn [hex_loop].
  - intros [= <- <-]. auto.
  - rewrite M_bind_unfold. unfold lift at 1.
    destruct (filter_result (row_matches i j byte) dataset)
      as [[| row rows] | e]; try (intros [= <- <-]; auto).
    rewrite M_bind_unfold.
    destruct (random_choice_nonempty draws row rows w) as [y ->].
    intros H. apply IH in H. exact H.
Qed.

Lemma hex_loop_from_dataset (i j : Z) (byte_list : list str)
    (acc songs : list Song) (w w' : world) :
  hex_loop draws dataset i j byte_list acc w = (w', Ok songs) ->
  exists new, songs = acc ++ new /\
    length new = length byte_list /\
    Forall (from_dataset dataset) new /\
    rand_pos w' = (rand_pos w + length byte_list)%nat.
Proof.
  revert acc w. induction byte_list as [| byte rest IH]; intros acc w;
    cbn [hex_loop].
  - intros [= <- <-]. exists []. rewrite app_nil_r.
    repeat split; [constructor | cbn; lia].
  - rewrite M_bind_unfold. unfold lift at 1.
    destruct (filter_result (row_matches i j byte) dataset)
      as [[| row rows] | e] eqn:Hscan; try discriminate.
    rewrite M_bind_unfold.
    destruct (random_choice draws (row :: rows) w) as [w1 [song_data | e]] eqn:Hch;
      [| discriminate].
    intros H. apply IH in H as (new & -> & Hlen & Hall & Hpos).
    assert (Hw1 : rand_pos w1 = S (rand_pos w)).
    { unfold random_choice in Hch. injection Hch as <- _. reflexivity. }
    apply random_choice_in in Hch as [Hin _].
    destruct (filter_result_ok _ _ _ Hscan _ Hin) as [Hdata _].
    eexists (_ :: new). split; [rewrite <- app_assoc; reflexivity |].
    split; [cbn; lia |]. split; [| cbn [length]; lia].
    constructor; [exists song_data; auto | exact Hall].
Qed.

(** X7: the playlist the Hex encoding returns has one song per byte of
    the message's UTF-8 encoding, hence between one and four songs per
    character; every song is built from a record of the dataset; and one
    random number is drawn per song. *)
Theorem hex_encoding_one_song_per_byte (message : str) (i j : Z)
    (w w' : world) (songs : list Song) :
  get_hex_encoding_songs draws dataset message i j w = (w', Ok songs) ->
  exists encoded,
    utf8_encode message = Ok encoded /\
    length songs = length encoded /\
    (length message <= length songs <= 4 * length message)%nat /\
    Forall (from_dataset dataset) songs /\
    rand_pos w' = (rand_pos w + length songs)%nat.
Proof.
  unfold get_hex_encoding_songs. rewrite M_bind_unfold. unfold lift at 1.
  destruct (utf8_encode message) as [encoded |] eqn:Henc; [| discriminate].
  intros H. apply hex_loop_from_dataset in H as (new & -> & Hlen & Hall & Hpos).
  cbn [app]. rewrite chunks2_hex, length_map in Hlen, Hpos.
  exists encoded. split; [reflexivity |]. split; [exact Hlen |].
  split; [rewrite Hlen; apply utf8_encode_length, Henc |].
  split; [exact Hall | rewrite Hlen; exact Hpos].
Qed.

(** X8: the Hex encoding neither reads nor writes the word cache and
    sends no catalog query, whether it returns or raises. *)
Theorem hex_encoding_leaves_cache_and_log (message : str) (i j : Z)
    (w w' : world) (r : result (list Song)) :
  get_hex_encoding_songs draws dataset message i j w = (w', r) ->
  cache_file w' = cache_file w /\ search_log w' = search_log w.
Proof.
  unfold get_hex_encoding_songs. rewrite M_bind_unfold. unfold lift at 1.
  destruct (utf8_encode message) as [encoded |]; [| intros [= <- <-]; auto].
  apply hex_loop_world.
Qed.

(** X9: with the two indices equal, only bytes whose two hexadecimal
    digits are the same can be encoded: if the Hex encoding returns a
    playlist, every byte of the message's UTF-8 encoding is one of 00, 11,
    ..., ff. *)
Theorem hex_encoding_equal_indices (message : str) (i : Z) (w w' : world)
    (songs : list Song) (encoded : bytes) :
  get_hex_encoding_songs draws dataset message i i w = (w', Ok songs) ->
  utf8_encode message = Ok encoded ->
  Forall (fun b => b / 16 = b mod 16) encoded.
Proof.
  unfold get_hex_encoding_songs. rewrite M_bind_unfold. unfold lift at 1.
  intros H Henc. rewrite Henc in H.
  apply hex_loop_ok in H as (new & _ & Hnew). rewrite chunks2_hex in Hnew.
  destruct (utf8_roundtrip _ _ Henc) as [_ Hbytes]. clear Henc.
  revert new Hnew.
  induction Hbytes as [| b r Hb _ IH]; intros new Hnew; [constructor |].
  cbn [map] in Hnew.
  inversion Hnew as [| s p ss ps (x & y & Hx & Hx' & Hy & Hy') Hrest]; subst.
  constructor; [| eapply IH, Hrest].
  rewrite getitem_0_cons in Hx'. injection Hx' as <-.
  change (getitem [hexdigit (b / 16); hexdigit (b mod 16)] 1)
    with (@Ok Z (hexdigit (b mod 16))) in Hy'.
  injection Hy' as <-. rewrite Hx in Hy. injection Hy as Hdig.
  unfold is_byte in Hb. apply hexdigit_inj; [zsolve | zsolve | exact Hdig].
Qed.

End HexEncodingFacts.

(** ** How the two encodings fail *)

Lemma filter_result_pure {A} (p : A -> result bool) (f : A -> bool) (l : list A) :
  Forall (fun x => p x = Ok (f x)) l ->
  filter_result p l = Ok (List.filter f l).
Proof.
  induction 1 as [| x r Hx _ IH]; cbn [filter_result List.filter]; [reflexivity |].
  rewrite Hx, IH. cbn. destruct (f x); reflexivity.
Qed.

Lemma filter_result_raises {A} (p : A -> result bool) (l : list A) (e : exn) :
  (forall x e', p x = Raise e' -> e' = e) ->
  Exists (fun x => exists e', p x = Raise e') l ->
  filter_result p l = Raise e.
Proof.
  intros Honly H.
  induction H as [x r [e' Hx] | x r _ IH]; cbn [filter_result].
  - rewrite Hx. cbn. f_equal. eapply Honly, Hx.
  - destruct (p x) as [b |] eqn:Hx; cbn.
    + rewrite IH. reflexivity.
    + f_equal. eapply Honly, Hx.
Qed.

Lemma row_matches_long (i j : nat) (a b : Z) (row : Row) :
  Z.max (Z.of_nat i) (Z.of_nat j) < len (row_track_id row) ->
  row_matches (Z.of_nat i) (Z.of_nat j) [a; b] row = Ok (row_has i j a b row).
Proof.
  intros Hlong. unfold row_matches, row_has, len in *.
  rewrite !(getitem_nonneg (row_track_id row)) by lia. rewrite !Nat2Z.id.
  destruct (lookup_lt_is_Some_2 (row_track_id row) i) as [x Hx]; [lia |].
  destruct (lookup_lt_is_Some_2 (row_track_id row) j) as [y Hy]; [lia |].
  rewrite Hx, Hy. cbn [mbind result_bind].
  rewrite getitem_0_cons. cbn [mbind result_bind].
  destruct (x =? a); [| reflexivity]. cbn [mbind result_bind andb].
  change (getitem [a; b] 1) with (@Ok Z b). reflexivity.
Qed.

Section EncodingFailures.
Variable draws : nat -> nat.
Variable sp_search : nat -> str -> option (list Song).
Variable lower : str -> str.
Variable dataset : list Row.

Lemma scan_long (i j : nat) (x : Z) :
  Forall (fun row => Z.max (Z.of_nat i) (Z.of_nat j) < len (row_track_id row))
    dataset ->
  filter_result (row_matches (Z.of_nat i) (Z.of_nat j) (hex_pair x)) dataset
  = Ok (List.filter (row_has i j (hexdigit (x / 16)) (hexdigit (x mod 16)))
          dataset).
Proof.
  intros Hlong. apply filter_result_pure.
  eapply Forall_impl; [exact Hlong |]. cbn. intros row Hrow.
  apply row_matches_long, Hrow.
Qed.

Lemma filter_nil_existsb {A} (f : A -> bool) (l : list A) :
  List.filter f l = [] <-> existsb f l = false.
Proof.
  induction l as [| x r IH]; cbn; [tauto |].
  destruct (f x); cbn; [split; discriminate | exact IH].
Qed.

Lemma scan_finds_record (i j : nat) (x : Z) :
  Forall (fun row => Z.max (Z.of_nat i) (Z.of_nat j) < len (row_track_id row))
    dataset ->
  has_record dataset i j x = true ->
  scan_finds dataset (Z.of_nat i) (Z.of_nat j) (hex_pair x).
Proof.
  intros Hlong Hrec. unfold scan_finds. rewrite (scan_long i j x Hlong).
  destruct (List.filter _ dataset) as [| row rows] eqn:Hf; [| eauto].
  apply filter_nil_existsb in Hf. unfold has_record in Hrec. congruence.
Qed.

(** X19: over a dataset whose identifiers are all longer than both
    indices, the Hex encoding of a UTF-8 encodable message is
    all-or-nothing: it returns a playlist when the dataset has a record
    for every byte, and otherwise raises the resolution failure that
    names the first byte without a record; it raises nothing else. *)
Theorem hex_encoding_all_or_nothing (message : str) (encoded : bytes)
    (i j : nat) (w : world) :
  Forall (fun row => Z.max (Z.of_nat i) (Z.of_nat j) < len (row_track_id row))
    dataset ->
  utf8_encode message = Ok encoded ->
  (forallb (has_record dataset i j) encoded = true ->
   exists w' songs,
     get_hex_encoding_songs draws dataset message (Z.of_nat i) (Z.of_nat j) w
     = (w', Ok songs)) /\
  (forall pre x post,
      encoded = pre ++ x :: post ->
      forallb (has_record dataset i j) pre = true ->
      has_record dataset i j x = false ->
      exists w',
        get_hex_encoding_songs draws dataset message (Z.of_nat i) (Z.of_nat j) w
        = (w', Raise (ResolutionFailureByte (hex_pair x)))).
Proof.
  intros Hlong Henc.
  assert (Hrun : get_hex_encoding_songs draws dataset message (Z.of_nat i)
                   (Z.of_nat j) w
                 = hex_loop draws dataset (Z.of_nat i) (Z.of_nat j)
                     (map hex_pair encoded) [] w).
  { unfold get_hex_encoding_songs. rewrite M_bind_unfold. unfold lift at 1.
    rewrite Henc, chunks2_hex. reflexivity. }
  rewrite Hrun. clear Hrun.
  assert (Hfinds : forall l, forallb (has_record dataset i j) l = true ->
                     Forall (scan_finds dataset (Z.of_nat i) (Z.of_nat j))
                       (map hex_pair l)).
  { induction l as [| y l IH]; cbn [forallb map]; [constructor |].
    intros [Hy Hl]%andb_true_iff.
    constructor; [apply scan_finds_record; assumption | apply IH, Hl]. }
  split.
  - intros Hall.
    destruct (hex_loop_total draws dataset _ _ _ [] w (Hfinds _ Hall))
      as (songs & w' & Hloop).
    eauto.
  - intros pre x post -> Hpre Hx.
    destruct (hex_loop_total draws dataset _ _ _ [] w (Hfinds _ Hpre))
      as (songs & w' & Hloop).
    exists w'. rewrite map_app. cbn [map].
    apply (hex_loop_not_found draws dataset _ _ _ _ _ _ _ songs Hloop).
    rewrite (scan_long i j x Hlong). f_equal.
    apply filter_nil_existsb, Hx.
Qed.

(** X20: the First-Word encoding names the word it fails on: when the
    resolver returns songs for the words before a word and finds nothing
    for that word, the encoding raises the resolution failure carrying the
    word as typed, and returns no playlist. *)
Theorem first_word_encoding_not_found (message : str) (pre post : list str)
    (word : str) (songs : list Song) (w w1 w2 : world) :
  split message = pre ++ word :: post ->
  resolver_run draws sp_search lower w pre songs w1 ->
  get_song_from_first_word draws sp_search lower (strip_ws word) w1
  = (w2, Ok None) ->
  get_first_word_encoding_songs draws sp_search lower message w
  = (w2, Raise (ResolutionFailureWord word)).
Proof.
  intros Hsplit Hpre Hword. unfold get_first_word_encoding_songs.
  rewrite Hsplit.
  apply (first_word_loop_not_found draws sp_search lower pre post word w w1 w2 songs);
    [| exact Hword].
  apply (resolver_run_loop draws sp_search lower pre songs [] w w1 Hpre).
Qed.

Lemma leading_word_matches_error (key : str) (item : Song) (e : exn) :
  leading_word_matches lower key item = Raise e -> e = IndexError.
Proof.
  unfold leading_word_matches.
  destruct (split (name item)) as [| tok toks].
  - rewrite getitem_nil. cbn. congruence.
  - rewrite getitem_0_cons. discriminate.
Qed.

(** X21: one nameless track among the search results stops the
    resolver: on a cache miss, if the catalog answers with a list in
    which some track has a name without a word (empty or whitespace
    only), the resolver raises [IndexError] after that one query, whatever
    the other results are, and writes nothing to the cache file. *)
Theorem resolver_blank_search_result (word key : str) (items : list Song)
    (w : world) :
  normalize word = Ok key ->
  cache_miss w key ->
  sp_search (length (search_log w)) (quoted key) = Some items ->
  Exists (fun item => split (name item) = []) items ->
  get_song_from_first_word draws sp_search lower word w
  = (logged w (quoted key), Raise IndexError).
Proof.
  intros Hkey Hmiss Hsp Hblank.
  assert (Hfilter : filter_result (leading_word_matches lower key) items
                    = Raise IndexError).
  { apply filter_result_raises.
    - intros x e'. apply leading_word_matches_error.
    - eapply Exists_impl; [exact Hblank |]. cbn. intros item Hitem.
      exists IndexError. unfold leading_word_matches.
      rewrite Hitem, getitem_nil. reflexivity. }
  unfold get_song_from_first_word. rewrite M_bind_unfold. unfold lift at 1.
  rewrite Hkey. rewrite M_bind_unfold. unfold load_song_cache at 1.
  destruct Hmiss as [Hread Hmiss]. rewrite Hread.
  assert (Hcache : default ∅ (cache_file w) = cache_of w)
    by (unfold cache_of; rewrite Hread; reflexivity).
  rewrite Hcache.
  assert (Hrest :
    (search sp_search (quoted key) ≫= λ results,
       match results with
       | Some items =>
           lift (filter_result (leading_word_matches lower key) items)
           ≫= λ songs,
             match songs with
             | [] => mret None
             | _ :: _ =>
                 save_song_cache (<[key:=songs]> (cache_of w))
                 ≫= λ _, random_choice draws songs
                          ≫= λ song, mret (Some song)
             end
       | None => mret None
       end) w = (logged w (quoted key), Raise IndexError)).
  { rewrite M_bind_unfold. unfold search at 1. rewrite Hsp.
    rewrite M_bind_unfold. unfold lift at 1. rewrite Hfilter. reflexivity. }
  destruct Hmiss as [Hm | Hm]; rewrite Hm; exact Hrest.
Qed.

End EncodingFailures.

(** * The receiver's input: playlist identifiers and playlist pages *)

Lemma getitem_last {A} (l : list A) (x : A) : getitem (l ++ [x]) (-1) = Ok x.
Proof.
  unfold getitem, len. cbv zeta. rewrite length_app. cbn [length Z.ltb Z.compare].
  replace (-1 + Z.of_nat (length l + 1)) with (Z.of_nat (length l)) by lia.
  replace (Z.of_nat (length l) <? 0) with false by (symmetry; apply Z.ltb_ge; lia).
  replace (Z.of_nat (length l + 1) <=? Z.of_nat (length l)) with false
    by (symmetry; apply Z.leb_gt; lia).
  cbn [orb]. rewrite Nat2Z.id.
  rewrite lookup_app_r by lia. rewrite Nat.sub_diag. reflexivity.
Qed.

Lemma split_sep_go_free (sep : Z) (cur s : str) :
  free_of sep s = true -> split_sep_go sep cur s = [cur ++ s].
Proof.
  revert cur. induction s as [| c r IH]; intros cur; cbn [free_of forallb split_sep_go].
  - rewrite app_nil_r. reflexivity.
  - intros [Hc Hr]%andb_true_iff. apply negb_true_iff in Hc. rewrite Hc.
    rewrite (IH _ Hr), <- app_assoc. reflexivity.
Qed.

(** What follows the last separator is the last piece. *)
Lemma split_sep_go_last (sep : Z) (cur a b : str) :
  free_of sep b = true ->
  exists init, split_sep_go sep cur (a ++ sep :: b) = init ++ [b].
Proof.
  intros Hb. revert cur. induction a as [| c r IH]; intros cur; cbn [app split_sep_go].
  - rewrite Z.eqb_refl, (split_sep_go_free sep [] b Hb). exists [cur]. reflexivity.
  - destruct (c =? sep).
    + destruct (IH []) as [init ->]. exists (cur :: init). reflexivity.
    + apply IH.
Qed.

(** What precedes the first separator is the first piece. *)
Lemma split_sep_go_first (sep : Z) (cur a b : str) :
  free_of sep a = true ->
  split_sep_go sep cur (a ++ sep :: b) = (cur ++ a) :: split_sep_go sep [] b.
Proof.
  revert cur. induction a as [| c r IH]; intros cur; cbn [app free_of forallb split_sep_go].
  - intros _. rewrite Z.eqb_refl, app_nil_r. reflexivity.
  - intros [Hc Hr]%andb_true_iff. apply negb_true_iff in Hc. rewrite Hc.
    rewrite (IH _ Hr), <- app_assoc. reflexivity.
Qed.

(** The pieces hold no separator, there is at least one, and they keep
    what holds of every character of the string. *)
Lemma split_sep_go_pieces (sep : Z) (p : Z -> bool) (cur s : str) :
  forallb p cur = true -> forallb p s = true ->
  free_of sep cur = true ->
  exists piece pieces,
    split_sep_go sep cur s = piece :: pieces /\
    Forall (fun x => forallb p x = true /\ free_of sep x = true) (piece :: pieces).
Proof.
  revert cur. induction s as [| c r IH]; intros cur Hcur Hs Hfree;
    cbn [split_sep_go forallb] in *.
  - exists cur, []. split; [reflexivity |]. repeat constructor; assumption.
  - apply andb_true_iff in Hs as [Hc Hr]. destruct (c =? sep) eqn:Hsep.
    + destruct (IH [] eq_refl Hr eq_refl) as (x & xs & -> & Hall).
      exists cur, (x :: xs). split; [reflexivity |].
      constructor; [split; assumption | exact Hall].
    + apply IH; [| exact Hr |].
      * rewrite forallb_app, Hcur. cbn. rewrite Hc. reflexivity.
      * unfold free_of. rewrite forallb_app. fold (free_of sep cur).
        rewrite Hfree. cbn. rewrite Hsep. reflexivity.
Qed.

Lemma forallb_true_const (s : str) : forallb (fun _ => true) s = true.
Proof. induction s; cbn; auto. Qed.

Lemma getitem_last_cons {A} (x : A) (l : list A) :
  exists y, getitem (x :: l) (-1) = Ok y /\ In y (x :: l).
Proof.
  destruct (exists_last (l := x :: l)) as (init & y & Heq); [discriminate |].
  rewrite Heq. exists y. split; [apply getitem_last |].
  apply in_or_app. right. left. reflexivity.
Qed.

Lemma playlist_id_of_ok (playlist_url : str) :
  exists playlist_id, playlist_id_of playlist_url = Ok playlist_id.
Proof.
  unfold playlist_id_of, split_sep.
  destruct (split_sep_go_pieces slash (fun _ => true) [] playlist_url
              eq_refl (forallb_true_const playlist_url) eq_refl)
    as (x & xs & -> & _).
  destruct (getitem_last_cons x xs) as (last_part & -> & _).
  cbn [mbind result_bind].
  destruct (split_sep_go_pieces question_mark (fun _ => true) [] last_part
              eq_refl (forallb_true_const last_part) eq_refl)
    as (y & ys & -> & _).
  rewrite getitem_0_cons. eauto.
Qed.

(** X10: the playlist identifier is always found ([split] with a
    separator never returns the empty list, so neither index can fail),
    and it holds neither a slash nor a question mark. *)
Theorem playlist_id_of_total (playlist_url : str) :
  exists playlist_id,
    playlist_id_of playlist_url = Ok playlist_id /\
    free_of slash playlist_id = true /\
    free_of question_mark playlist_id = true.
Proof.
  unfold playlist_id_of, split_sep.
  destruct (split_sep_go_pieces slash (fun _ => true) [] playlist_url
              eq_refl (forallb_true_const playlist_url) eq_refl)
    as (x & xs & Hsplit & Hall).
  rewrite Hsplit. destruct (getitem_last_cons x xs) as (last_part & -> & Hin).
  cbn [mbind result_bind].
  rewrite Forall_forall in Hall.
  destruct (Hall last_part (proj2 (list_elem_of_In _ _) Hin)) as [_ Hslash].
  destruct (split_sep_go_pieces question_mark (fun c => negb (c =? slash)) []
              last_part eq_refl Hslash eq_refl) as (y & ys & Hsplit2 & Hall2).
  rewrite Hsplit2, getitem_0_cons. exists y. split; [reflexivity |].
  inversion Hall2 as [| ? ? [Hy1 Hy2] _]; subst. split; assumption.
Qed.

(** X11: for a URL that ends in a slash, an identifier free of slashes
    and question marks and, possibly, a question mark and a query free of
    slashes, the identifier extracted is that identifier. *)
Theorem playlist_id_of_url (base playlist_id tail : str) :
  free_of slash playlist_id = true ->
  free_of question_mark playlist_id = true ->
  tail = [] \/ (exists query, tail = question_mark :: query /\
                              free_of slash query = true) ->
  playlist_id_of (base ++ slash :: playlist_id ++ tail) = Ok playlist_id.
Proof.
  intros Hslash Hq Htail. unfold playlist_id_of, split_sep.
  assert (Hfree : free_of slash (playlist_id ++ tail) = true).
  { unfold free_of in *. rewrite forallb_app, Hslash.
    destruct Htail as [-> | (query & -> & Hquery)]; [reflexivity |].
    cbn. exact Hquery. }
  destruct (split_sep_go_last slash [] base (playlist_id ++ tail) Hfree)
    as [init ->].
  rewrite getitem_last. cbn [mbind result_bind].
  destruct Htail as [-> | (query & -> & _)].
  - rewrite app_nil_r, (split_sep_go_free _ [] _ Hq). apply getitem_0_cons.
  - rewrite (split_sep_go_first _ [] _ _ Hq). apply getitem_0_cons.
Qed.

(** The loops of [get_songs_from_playlist] as functions of the pages. *)
Lemma items_loop_omap (items : list Item) (songs : list Song) :
  items_loop items songs = songs ++ omap song_of_item items.
Proof.
  revert songs. induction items as [| item rest IH]; intros songs.
  - cbn. rewrite app_nil_r. reflexivity.
  - assert (Hcons : omap song_of_item (item :: rest)
                    = match song_of_item item with
                      | Some y => y :: omap song_of_item rest
                      | None => omap song_of_item rest
                      end) by reflexivity.
    rewrite Hcons. clear Hcons. cbn [items_loop]. unfold song_of_item at 1.
    destruct (item_track item) as [track |]; cbn [mbind option_bind]; [| apply IH].
    destruct (t_id track) as [[| c tid] |]; cbn [truthy andb]; try apply IH.
    destruct (t_name track) as [[| n nm] |]; cbn [truthy andb]; try apply IH.
    rewrite IH, <- app_assoc. reflexivity.
Qed.

Lemma pages_loop_omap (pages : list Page) (songs : list Song) :
  pages_loop pages songs
  = songs ++ omap song_of_item (flat_map page_items (pages_read pages)).
Proof.
  revert songs. induction pages as [| p later IH]; intros songs;
    cbn [pages_loop pages_read flat_map].
  - rewrite app_nil_r. reflexivity.
  - rewrite items_loop_omap, omap_app.
    destruct (truthy (page_next p)).
    + rewrite IH, <- app_assoc. reflexivity.
    + cbn [flat_map]. rewrite app_nil_r. reflexivity.
Qed.

Lemma song_of_item_named (item : Item) (s : Song) :
  song_of_item item = Some s -> track_id s <> [] /\ name s <> [].
Proof.
  unfold song_of_item.
  destruct (item_track item) as [track |]; cbn; [| discriminate].
  destruct (t_id track) as [[| c tid] |]; try discriminate.
  destruct (t_name track) as [[| n nm] |]; try discriminate.
  intros [= <-]. cbn. split; discriminate.
Qed.

Lemma get_songs_from_playlist_omap (sp_playlist : str -> list Page)
    (playlist_url : str) :
  exists playlist_id,
    playlist_id_of playlist_url = Ok playlist_id /\
    get_songs_from_playlist sp_playlist playlist_url
    = Ok (omap song_of_item
            (flat_map page_items (pages_read (sp_playlist playlist_id)))).
Proof.
  destruct (playlist_id_of_ok playlist_url) as (playlist_id & Hid).
  exists playlist_id. split; [exact Hid |].
  unfold get_songs_from_playlist. rewrite Hid. cbn [mbind result_bind].
  rewrite pages_loop_omap. reflexivity.
Qed.

(** X12: reading a playlist never fails; it returns, in the order served,
    one song for each item of the pages read that has a track with a
    non-empty identifier and a non-empty name, and nothing else; so every
    song returned has a non-empty identifier and a non-empty name. *)
Theorem get_songs_from_playlist_songs (sp_playlist : str -> list Page)
    (playlist_url : str) :
  exists playlist_id songs,
    playlist_id_of playlist_url = Ok playlist_id /\
    get_songs_from_playlist sp_playlist playlist_url = Ok songs /\
    songs = omap song_of_item
              (flat_map page_items (pages_read (sp_playlist playlist_id))) /\
    Forall (fun s => track_id s <> [] /\ name s <> []) songs.
Proof.
  destruct (get_songs_from_playlist_omap sp_playlist playlist_url)
    as (playlist_id & Hid & Hsongs).
  eexists playlist_id, _. split; [exact Hid |]. split; [exact Hsongs |].
  split; [reflexivity |].
  apply Forall_forall. intros s Hs.
  apply list_elem_of_omap in Hs as (item & _ & Hitem).
  eapply song_of_item_named, Hitem.
Qed.

(** * The prompts and the two programs *)

Lemma get_message_inv (stdin rest : list str) (message : str) :
  get_message stdin = Entered message rest ->
  split message <> [] /\
  exists skipped,
    stdin = skipped ++ message :: rest /\
    Forall (fun line => split line = []) skipped.
Proof.
  induction stdin as [| line lines IH]; cbn [get_message]; [discriminate |].
  destruct (strip_ws line) as [| c r] eqn:Hstrip.
  - intros H. destruct (IH H) as (Hwords & skipped & -> & Hskipped).
    split; [exact Hwords |]. exists (line :: skipped). split; [reflexivity |].
    constructor; [| exact Hskipped].
    apply split_nil_iff. apply (strip_by_nil_iff isspace), Hstrip.
  - intros [= <- <-]. split.
    + intros Hsplit. apply split_nil_iff in Hsplit.
      apply (strip_by_nil_iff isspace) in Hsplit.
      unfold strip_ws in Hstrip. congruence.
    + exists []. split; [reflexivity | constructor].
Qed.

(** X13: the message prompt returns the first line that holds a
    character other than whitespace, unchanged, after passing over the
    lines without a word before it, so a message it returns has at least
    one word; it stops on the end of the input exactly when no line holds
    a word. *)
Theorem get_message_entered (stdin : list str) :
  (forall message rest,
      get_message stdin = Entered message rest ->
      split message <> [] /\
      exists skipped,
        stdin = skipped ++ message :: rest /\
        Forall (fun line => split line = []) skipped) /\
  (get_message stdin = EOFError <-> Forall (fun line => split line = []) stdin).
Proof.
  split; [intros message rest; apply get_message_inv |].
  induction stdin as [| line lines IH]; cbn [get_message].
  - split; [constructor | reflexivity].
  - destruct (strip_ws line) as [| c r] eqn:Hstrip.
    + rewrite IH. split.
      * intros H. constructor; [| exact H].
        apply split_nil_iff, (strip_by_nil_iff isspace), Hstrip.
      * intros H. inversion H; assumption.
    + split; [discriminate |]. intros H. inversion H as [| ? ? Hline _]; subst.
      apply split_nil_iff, (strip_by_nil_iff isspace) in Hline.
      unfold strip_ws in Hstrip. congruence.
Qed.

(** The scheme prompt returns [1] or [2], nothing else. *)
Lemma get_encoding_method_entered (stdin rest : list str) (encoding : str) :
  get_encoding_method stdin = Entered encoding rest ->
  encoding = lit "1" \/ encoding = lit "2".
Proof.
  induction stdin as [| line lines IH]; cbn [get_encoding_method]; [discriminate |].
  destruct (bool_decide (strip_ws line = lit "1")) eqn:H1.
  - intros [= <- <-]. left. apply bool_decide_eq_true in H1. exact H1.
  - destruct (bool_decide (strip_ws line = lit "2")) eqn:H2; cbn [orb].
    + intros [= <- <-]. right. apply bool_decide_eq_true in H2. exact H2.
    + exact IH.
Qed.

(** X14: the URL prompt returns the default URL for a blank line and
    otherwise the first line that, stripped of surrounding whitespace,
    starts with the playlist prefix; what it returns always starts with
    that prefix. *)
Theorem get_playlist_url_entered (stdin rest : list str) (playlist_url : str) :
  get_playlist_url stdin = Entered playlist_url rest ->
  startswith playlist_url playlist_url_prefix = true /\
  exists skipped line,
    stdin = skipped ++ line :: rest /\
    (strip_ws line = [] /\ playlist_url = default_playlist_url \/
     strip_ws line = playlist_url) /\
    Forall (fun l => strip_ws l <> [] /\
                     startswith (strip_ws l) playlist_url_prefix = false) skipped.
Proof.
  induction stdin as [| line lines IH]; cbn [get_playlist_url]; [discriminate |].
  destruct (strip_ws line) as [| c r] eqn:Hstrip.
  - intros [= <- <-]. split; [reflexivity |].
    exists [], line. split; [reflexivity |]. split; [left; auto | constructor].
  - destruct (startswith (c :: r) playlist_url_prefix) eqn:Hstart.
    + intros [= <- <-]. split; [exact Hstart |].
      exists [], line. split; [reflexivity |]. split; [right; exact Hstrip | constructor].
    + intros H. destruct (IH H) as (Hprefix & skipped & l & -> & Hline & Hskipped).
      split; [exact Hprefix |]. exists (line :: skipped), l.
      split; [reflexivity |]. split; [exact Hline |].
      constructor; [| exact Hskipped]. rewrite Hstrip. split; [discriminate | exact Hstart].
Qed.

Section PromptFacts.
Variable isdigit : str -> bool.
Variable int : str -> option Z.

Lemma get_index_entered (d : Z) (stdin rest : list str) (n : Z) :
  get_index isdigit int d stdin = Entered n rest ->
  exists skipped line,
    stdin = skipped ++ line :: rest /\
    (line = [] /\ n = d \/
     isdigit line = true /\ int line = Some n /\ 0 <= n <= 21) /\
    Forall (fun l => l <> [] /\
                     (isdigit l = false \/
                      exists m, int l = Some m /\ ~ 0 <= m <= 21)) skipped.
Proof.
  induction stdin as [| line lines IH]; cbn [get_index]; [discriminate |].
  destruct line as [| c r].
  - intros [= <- <-]. exists [], []. split; [reflexivity |].
    split; [left; auto | constructor].
  - destruct (isdigit (c :: r)) eqn:Hdigit.
    + destruct (int (c :: r)) as [m |] eqn:Hint; [| discriminate].
      destruct ((0 <=? m) && (m <=? 21)) eqn:Hrange.
      * intros [= <- <-]. exists [], (c :: r). split; [reflexivity |].
        split; [| constructor]. right. zcmp. auto.
      * intros H. destruct (IH H) as (skipped & l & -> & Hl & Hskipped).
        exists ((c :: r) :: skipped), l. split; [reflexivity |].
        split; [exact Hl |]. constructor; [| exact Hskipped].
        split; [discriminate |]. right. exists m. split; [exact Hint |].
        intros [H0 H21]. apply andb_false_iff in Hrange as [Hr | Hr]; zcmp; lia.
    + intros H. destruct (IH H) as (skipped & l & -> & Hl & Hskipped).
      exists ((c :: r) :: skipped), l. split; [reflexivity |].
      split; [exact Hl |]. constructor; [| exact Hskipped].
      split; [discriminate |]. left. exact Hdigit.
Qed.

Lemma get_index_in_range (d : Z) (stdin rest : list str) (n : Z) :
  get_index isdigit int d stdin = Entered n rest ->
  0 <= d <= 21 -> 0 <= n <= 21.
Proof.
  intros H Hd. apply get_index_entered in H as (skipped & line & _ & Hline & _).
  destruct Hline as [[_ Hn] | (_ & _ & Hr)]; lia.
Qed.

(** X15: an index returned by either index prompt lies between 0 and 21:
    it is the default (5 for the first index, 8 for the second) for an
    empty line, or the value of the first line of digits in that range;
    lines that are not digits or are out of range are passed over. *)
Theorem prompted_index_in_range (stdin rest : list str) (n : Z) :
  get_first_index isdigit int stdin = Entered n rest \/
  get_second_index isdigit int stdin = Entered n rest ->
  0 <= n <= 21 /\
  exists skipped line,
    stdin = skipped ++ line :: rest /\
    (line = [] \/ isdigit line = true /\ int line = Some n) /\
    Forall (fun l => l <> [] /\
                     (isdigit l = false \/
                      exists m, int l = Some m /\ ~ 0 <= m <= 21)) skipped.
Proof.
  unfold get_first_index, get_second_index.
  intros [H | H]; apply get_index_entered in H
    as (skipped & line & Hstdin & Hline & Hskipped);
    (split; [destruct Hline as [[_ ->] | (_ & _ & Hr)]; lia |]);
    exists skipped, line; (split; [exact Hstdin |]); (split; [| exact Hskipped]);
    destruct Hline as [[-> _] | (Hd & Hi & _)]; auto.
Qed.

End PromptFacts.

Lemma stopped_not_unknown {A B} (c : console A) :
  @stopped A B c <> UnknownEncodingMethod.
Proof. destruct c; discriminate. Qed.

Lemma stopped_not_raised {A B} (c : console A) (e : exn) :
  @stopped A B c <> Raised e.
Proof. destruct c; discriminate. Qed.

Lemma stopped_not_finished {A B} (c : console A) (b : B) :
  @stopped A B c <> Finished b.
Proof. destruct c; discriminate. Qed.




Section ProgramFacts.
Variable draws : nat -> nat.
Variable sp_search : nat -> str -> option (list Song).
Variable lower : str -> str.
Variable dataset : list Row.
Variable sp_playlist : str -> list Page.
Variable isdigit : str -> bool.
Variable int : str -> option Z.

(** X16: the receiver never reaches its [Unknown encoding method] error:
    the scheme prompt only lets [1] and [2] through. *)
Theorem receiver_never_unknown_encoding (stdin : list str) :
  receiver_main sp_playlist isdigit int stdin <> UnknownEncodingMethod.
Proof.
  unfold receiver_main.
  destruct (get_playlist_url stdin) as [playlist_url stdin1 | |]; try discriminate.
  destruct (get_encoding_method stdin1) as [encoding stdin2 | |] eqn:Henc;
    try discriminate.
  apply get_encoding_method_entered in Henc.
  destruct (get_songs_from_playlist sp_playlist playlist_url) as [[| s songs] | e];
    try discriminate.
  destruct Henc as [-> | ->].
  - cbn [bool_decide]. change (bool_decide (lit "1" = lit "1")) with true. cbv iota.
    destruct (decode_first_word_encoding (s :: songs)); discriminate.
  - change (bool_decide (lit "2" = lit "1")) with false.
    change (bool_decide (lit "2" = lit "2")) with true. cbv iota.
    destruct (get_first_index isdigit int stdin2) as [i stdin3 | |]; try discriminate.
    destruct (get_second_index isdigit int stdin3) as [j stdin4 | |]; try discriminate.
    destruct (decode_hex_encoding (s :: songs) i j); discriminate.
Qed.


(** X18: whenever the sender finishes, it has published what the chosen
    scheme returned for the message that was entered: the prompts gave a
    playlist address with its identifier, a message and a scheme, the
    scheme's encoding of that message returned a list of songs that is
    not empty, with one song per word (First-Word scheme) or per UTF-8
    byte (Hex scheme, at two prompted indices between 0 and 21), and the
    identifiers sent to the playlist are those of these songs, in order.
    The sender never finishes without publishing. *)
Theorem sender_finished_published (stdin : list str) (w w' : world)
    (r : option (str * list str)) :
  sender_main draws sp_search lower dataset isdigit int stdin w
  = (w', Finished r) ->
  exists playlist_url stdin1 playlist_id message stdin2 encoding stdin3 songs,
    get_playlist_url stdin = Entered playlist_url stdin1 /\
    playlist_id_of playlist_url = Ok playlist_id /\
    get_message stdin1 = Entered message stdin2 /\
    get_encoding_method stdin2 = Entered encoding stdin3 /\
    r = Some (playlist_id, map track_id songs) /\
    songs <> [] /\
    ((encoding = lit "1" /\
      get_first_word_encoding_songs draws sp_search lower message w
      = (w', Ok songs) /\
      length songs = length (split message)) \/
     (encoding = lit "2" /\
      exists first_index stdin4 second_index stdin5 encoded,
        get_first_index isdigit int stdin3 = Entered first_index stdin4 /\
        get_second_index isdigit int stdin4 = Entered second_index stdin5 /\
        0 <= first_index <= 21 /\ 0 <= second_index <= 21 /\
        get_hex_encoding_songs draws dataset message first_index second_index w
        = (w', Ok songs) /\
        utf8_encode message = Ok encoded /\
        length songs = length encoded)).
Proof.
  unfold sender_main.
  destruct (get_playlist_url stdin) as [playlist_url stdin1 | |] eqn:Hurl;
    try discriminate.
  destruct (playlist_id_of playlist_url) as [playlist_id | e] eqn:Hid;
    [| discriminate].
  destruct (get_message stdin1) as [message stdin2 | |] eqn:Hmsg; try discriminate.
  destruct (get_encoding_method stdin2) as [encoding stdin3 | |] eqn:Henc;
    try discriminate.
  pose proof (get_encoding_method_entered _ _ _ Henc) as Hscheme.
  pose proof (get_message_inv _ _ _ Hmsg) as (Hwords & _).
  intros Hrun.
  exists playlist_url, stdin1, playlist_id, message, stdin2, encoding, stdin3.
  cbv zeta in Hrun. destruct Hscheme as [-> | ->].
  - change (bool_decide (lit "1" = lit "1")) with true in Hrun. cbv iota in Hrun.
    destruct (get_first_word_encoding_songs draws sp_search lower message w)
      as [w1 [songs | e]] eqn:Hsongs; [| discriminate].
    pose proof Hsongs as Hlen. unfold get_first_word_encoding_songs in Hlen.
    apply first_word_loop_length in Hlen. cbn [length Nat.add] in Hlen.
    destruct songs as [| s ss].
    + exfalso. destruct (split message); [contradiction | discriminate].
    + injection Hrun as <- <-. exists (s :: ss).
      repeat (split; [first [assumption | reflexivity | discriminate] |]).
      left. split; [reflexivity |]. split; [first [exact Hsongs | reflexivity] | exact Hlen].
  - change (bool_decide (lit "2" = lit "1")) with false in Hrun.
    change (bool_decide (lit "2" = lit "2")) with true in Hrun.
    cbv iota in Hrun. cbn [orb] in Hrun.
    destruct (get_first_index isdigit int stdin3) as [i stdin4 | |] eqn:Hi;
      try discriminate.
    destruct (get_second_index isdigit int stdin4) as [j stdin5 | |] eqn:Hj;
      try discriminate.
    destruct (get_hex_encoding_songs draws dataset message i j w)
      as [w1 [songs | e]] eqn:Hsongs; [| discriminate].
    pose proof Hsongs as Hlen.
    unfold get_hex_encoding_songs in Hlen. rewrite M_bind_unfold in Hlen.
    unfold lift at 1 in Hlen.
    destruct (utf8_encode message) as [encoded |] eqn:Hutf; [| discriminate].
    apply hex_loop_from_dataset in Hlen as (new & -> & Hlen & _ & _).
    cbn [app] in *. rewrite chunks2_hex, length_map in Hlen.
    pose proof (utf8_encode_length _ _ Hutf) as [Hlower _].
    destruct new as [| s ss].
    + exfalso. destruct message; [apply Hwords; reflexivity | cbn in *; lia].
    + injection Hrun as <- <-. exists (s :: ss).
      repeat (split; [first [assumption | reflexivity | discriminate] |]).
      right. split; [reflexivity |].
      exists i, stdin4, j, stdin5, encoded.
      split; [first [exact Hi | reflexivity] |]. split; [first [exact Hj | reflexivity] |].
      split; [apply (get_index_in_range _ _ _ _ _ _ Hi); lia |].
      split; [apply (get_index_in_range _ _ _ _ _ _ Hj); lia |].
      split; [first [exact Hsongs | reflexivity] |]. split; [first [exact Hutf | reflexivity] | exact Hlen].
Qed.

End ProgramFacts.

(** * The theorems at concrete inputs *)

(** The message [Hi] with the indices 5 and 8: bytes 48 and 69, one
    record found for each, and the playlist decodes to [Hi]. *)
Lemma hex_roundtrip_witness :
  utf8_encode (lit "Hi") = Ok [72; 105] /\
  Forall (scan_finds example_dataset 5 8) (chunks2 (hex [72; 105])) /\
  exists songs w',
    get_hex_encoding_songs example_draws example_dataset (lit "Hi") 5 8
      fresh_world = (w', Ok songs) /\
    decode_hex_encoding songs 5 8 = Ok (lit "Hi").
Proof.
  assert (H1 : utf8_encode (lit "Hi") = Ok [72; 105]) by reflexivity.
  assert (H2 : Forall (scan_finds example_dataset 5 8) (chunks2 (hex [72; 105]))).
  { repeat constructor; do 2 eexists; vm_compute; reflexivity. }
  split; [exact H1 |]. split; [exact H2 |].
  exact (proj2 (hex_roundtrip example_draws example_dataset (lit "Hi") 5 8
                  fresh_world) [72; 105] H1 H2).
Defined.

(** The message [Go Now] against the tracks [Go, Get It] and
    ['Now' or Never]. *)
Lemma first_word_roundtrip_witness :
  exists w',
    get_first_word_encoding_songs example_draws punctuated_search ascii_lower
      (lit "Go Now") fresh_world = (w', Ok [go_comma_get_it; now_in_quotes]) /\
    decode_first_word_encoding [go_comma_get_it; now_in_quotes]
    = Ok (join space (split (lit "Go Now"))) /\
    split (join space (split (lit "Go Now"))) = split (lit "Go Now").
Proof.
  eexists.
  apply (first_word_roundtrip example_draws punctuated_search ascii_lower
           (lit "Go Now") fresh_world).
  - repeat constructor.
  - change (split (lit "Go Now")) with [lit "Go"; lit "Now"].
    eapply resolver_run_cons; [vm_compute; reflexivity |].
    eapply resolver_run_cons; [vm_compute; reflexivity |].
    apply resolver_run_nil.
  - change (split (lit "Go Now")) with [lit "Go"; lit "Now"].
    constructor; [exists [], (lit ","); repeat split; reflexivity |].
    constructor; [exists (lit "'"), (lit "'"); repeat split; reflexivity |].
    constructor.
Defined.

(** [Hello,] and [hello] get the keys [Hello] and [hello]: the key is not
    lower-cased. *)
Lemma normalize_keeps_case_counterexample :
  normalize (lit "Hello,") = Ok (lit "Hello") /\
  normalize (lit "hello") = Ok (lit "hello") /\
  normalize (lit "Hello,") <> normalize (lit "hello").
Proof.
  split; [reflexivity |]. split; [reflexivity |].
  vm_compute. discriminate.
Qed.

(** [Don't!] and ['?Don't'?] share the key [Don't], and a track named
    [Don't! Stop] is a candidate for the key [don't]. *)
Lemma normalize_strips_punctuation_keeps_case_witness :
  forallb is_punct (lit "!") = true /\ forallb is_punct (lit "'?") = true /\
  normalize (lit "Don't!") = normalize (lit "'?Don't'?") /\
  normalize (lit "Don't!") = Ok (lit "Don't") /\
  leading_word_matches ascii_lower (lit "don't")
    (mkSong [] (lit "Don't! Stop") []) = Ok true /\
  filter_result (leading_word_matches ascii_lower (lit "Go"))
    [go_get_it; now_or_never]
  = filter_result (leading_word_matches ascii_lower (lit "go"))
      [go_get_it; now_or_never].
Proof.
  destruct (normalize_strips_punctuation_keeps_case ascii_lower
              [] (lit "!") (lit "'?") (lit "'?") (lit "Don't")
              eq_refl eq_refl eq_refl eq_refl) as (H1 & H2 & H3 & H4).
  split; [reflexivity |]. split; [reflexivity |].
  split; [exact H1 |]. split; [| split].
  - apply H2; [split; [discriminate | reflexivity] | reflexivity].
  - exact (H3 (lit "don't") (mkSong [] (lit "Don't! Stop") []) eq_refl eq_refl).
  - apply H4. reflexivity.
Defined.

(** Three songs, two bytes: the song whose identifier has spaces at the
    two indices is passed over by [bytes.fromhex], and the playlist
    decodes to [Hi] although its second song carries no hexadecimal
    byte. *)
Lemma decode_hex_whitespace_counterexample :
  let songs := [mkSong (lit "7ouMY4bw8tZ9SuDNjTR1Ec") [] [];
                mkSong (lit "local            file") [] [];
                mkSong (lit "2takc6hn9CZZcC0aJ3bXXp") [] []] in
  decode_hex_encoding songs 5 8 = Ok (lit "Hi") /\
  song_hex_byte 5 8 (mkSong (lit "local            file") [] []) = None /\
  spec_hex_decode songs 5 8 = None /\
  to_option (decode_hex_encoding songs 5 8) <> spec_hex_decode songs 5 8.
Proof.
  cbv zeta. split; [reflexivity |]. split; [reflexivity |].
  split; [reflexivity |]. vm_compute. discriminate.
Qed.

Lemma decode_hex_one_byte_per_song_witness :
  no_space_at 5 hi_playlist = true /\
  to_option (decode_hex_encoding hi_playlist 5 8) = spec_hex_decode hi_playlist 5 8 /\
  spec_hex_decode hi_playlist 5 8 = Some (lit "Hi").
Proof.
  split; [reflexivity |]. split; [| reflexivity].
  exact (proj1 (decode_hex_one_byte_per_song hi_playlist 5 8 eq_refl)).
Defined.

(** A playlist whose second identifier has five characters. *)
Lemma decode_hex_truncated_witness :
  0 <= 5 /\ 0 <= 8 /\
  exists s,
    In s [mkSong (lit "7ouMY4bw8tZ9SuDNjTR1Ec") [] []; mkSong (lit "short") [] []] /\
    len (track_id s) <= Z.max 5 8 /\
    decode_hex_encoding
      [mkSong (lit "7ouMY4bw8tZ9SuDNjTR1Ec") [] []; mkSong (lit "short") [] []] 5 8
    = Raise (TruncatedIdentifier (track_id s) 5 8).
Proof.
  assert (H5 : 0 <= 5) by lia. assert (H8 : 0 <= 8) by lia.
  split; [exact H5 |]. split; [exact H8 |].
  apply (proj1 (decode_hex_truncated
                  [mkSong (lit "7ouMY4bw8tZ9SuDNjTR1Ec") [] [];
                   mkSong (lit "short") [] []] 5 8 H5 H8)).
  apply Exists_cons_tl, Exists_cons_hd. vm_compute. discriminate.
Defined.

(** One song whose characters at the indices are [x] and [8]. *)
Lemma decode_hex_malformed_witness :
  decode_hex_loop 5 8 [mkSong (lit "7ouMYxbw8tZ9SuDNjTR1Ec") [] []] []
  = Ok [lit "x8"] /\
  decode_hex_encoding [mkSong (lit "7ouMYxbw8tZ9SuDNjTR1Ec") [] []] 5 8
  = Raise (MalformedPayload (lit "x8")).
Proof.
  split; [reflexivity |].
  apply (proj1 (proj2 (decode_hex_malformed
                         [mkSong (lit "7ouMYxbw8tZ9SuDNjTR1Ec") [] []] 5 8
                         [lit "x8"] eq_refl))).
  left. reflexivity.
Defined.

(** Resolving [Go,] twice from a fresh world: one query, for the key
    [Go]. *)
Lemma resolve_twice_one_search_witness :
  exists w1 s1,
    get_song_from_first_word example_draws example_search ascii_lower
      (lit "Go,") fresh_world = (w1, Ok (Some s1)) /\
    exists key items candidates,
      normalize (lit "Go,") = Ok key /\
      example_search (length (search_log fresh_world)) (quoted key) = Some items /\
      filter_result (leading_word_matches ascii_lower key) items = Ok candidates /\
      search_log w1 = search_log fresh_world ++ [quoted key] /\
      cache_file w1 = Some (<[key := candidates]> ∅) /\
      In s1 candidates /\
      exists s2 w2,
        get_song_from_first_word example_draws example_search ascii_lower
          (lit "Go,") w1 = (w2, Ok (Some s2)) /\
        search_log w2 = search_log w1 /\
        cache_file w2 = cache_file w1 /\
        In s2 candidates.
Proof.
  eexists _, _. split; [vm_compute; reflexivity |].
  apply (resolve_twice_one_search example_draws example_search ascii_lower
           (lit "Go,") fresh_world); [reflexivity | vm_compute; reflexivity].
Defined.

(** The message [Go ... Now]: the first word resolves, the second token
    stops the encoding. *)
Lemma punctuation_token_crash_witness :
  split (lit "Go ... Now") = [lit "Go"] ++ lit "..." :: [lit "Now"] /\
  forallb is_punct (lit "...") = true /\
  exists w1,
    get_first_word_encoding_songs example_draws example_search ascii_lower
      (lit "Go ... Now") fresh_world = (w1, Raise IndexError).
Proof.
  split; [reflexivity |]. split; [reflexivity |].
  eexists.
  eapply (punctuation_token_crash example_draws example_search ascii_lower
            (lit "Go ... Now") [lit "Go"] [lit "Now"] (lit "...") fresh_world);
    [reflexivity | reflexivity | vm_compute; reflexivity].
Defined.

(** * The further properties at concrete inputs *)

Lemma cache_wf_example :
  cache_wf ascii_lower (cache_of example_cache_world).
Proof.
  intros key songs. unfold cache_of, example_cache_world.
  cbn [cache_file cache_cut default from_option id].
  destruct (decide (lit "Go" = key)) as [<- | Hne].
  - rewrite lookup_insert_eq. intros [= <-]. repeat constructor.
    exists (lit "Go"). split; reflexivity.
  - rewrite lookup_insert_ne by exact Hne. rewrite lookup_empty. discriminate.
Qed.

Lemma ascii_lower_nil (t : str) : ascii_lower t = [] -> t = [].
Proof. destruct t; [reflexivity | discriminate]. Qed.

(** A search result whose name holds a lone surrogate: the save stops
    with [UnicodeEncodeError] and leaves the cache file cut off, the
    entry [Go] is lost, and the next resolution cannot read the file. *)
Lemma save_failure_example :
  let unpaired := mkSong (lit "3n3Ppam7vgaVa1iaRUc9Lp") (lit "Now " ++ [0xD800]) [] in
  let cut := mkWorld None true 0 [quoted (lit "Now")] in
  get_song_from_first_word example_draws (fun _ _ => Some [unpaired])
    ascii_lower (lit "Now") example_cache_world
  = (cut, Raise UnicodeEncodeError) /\
  cache_of cut !! lit "Go" = None /\
  get_song_from_first_word example_draws (fun _ _ => Some [unpaired])
    ascii_lower (lit "Go") cut
  = (cut, Raise JSONDecodeError).
Proof. vm_compute. repeat split. Qed.

Lemma cache_hit_sends_no_query_witness :
  exists w' r,
    get_song_from_first_word example_draws example_search ascii_lower
      (lit "Go!") example_cache_world = (w', r) /\
    (exists s, r = Ok (Some s) /\ In s [go_get_it]) /\
    search_log w' = search_log example_cache_world /\
    cache_file w' = cache_file example_cache_world.
Proof.
  eexists _, _. split; [vm_compute; reflexivity |].
  eapply (cache_hit_sends_no_query example_draws example_search ascii_lower
           (lit "Go!") (lit "Go") go_get_it [] example_cache_world);
    [reflexivity | reflexivity | vm_compute; reflexivity].
Defined.



Lemma encoding_queries_bound_witness :
  exists w' r,
    get_first_word_encoding_songs example_draws example_search ascii_lower
      (lit "Go now Go") example_cache_world = (w', r) /\
    (length (search_log example_cache_world) <= length (search_log w')
     <= length (search_log example_cache_world)
        + length (split (lit "Go now Go")))%nat.
Proof.
  eexists _, _. split; [vm_compute; reflexivity |].
  eapply (encoding_queries_bound example_draws example_search ascii_lower
           (lit "Go now Go") example_cache_world).
  vm_compute. reflexivity.
Defined.

Lemma first_word_roundtrip_up_to_case_witness :
  exists text,
    decode_first_word_encoding [go_get_it; now_or_never] = Ok text /\
    Forall2 (fun word d => ascii_lower d = ascii_lower word)
      (split (lit "go NOW")) (split text).
Proof.
  eapply (first_word_roundtrip_up_to_case example_draws example_search ascii_lower
           (lit "go NOW") example_cache_world _ [go_get_it; now_or_never]).
  - reflexivity.
  - exact ascii_lower_nil.
  - exact cache_wf_example.
  - repeat constructor.
  - vm_compute. reflexivity.
Defined.

Lemma decode_first_word_returns_iff_witness :
  (exists text, decode_first_word_encoding [go_get_it; now_or_never] = Ok text) /\
  (length (split (lit "Go Now")) <= length [go_get_it; now_or_never])%nat.
Proof.
  destruct (decode_first_word_returns_iff [go_get_it; now_or_never]) as [Hiff Hlen].
  split.
  - apply Hiff. repeat constructor; right; reflexivity.
  - apply Hlen. reflexivity.
Defined.

Lemma hex_encoding_one_song_per_byte_witness :
  exists w' songs,
    get_hex_encoding_songs example_draws example_dataset (lit "Hi") 5 8
      fresh_world = (w', Ok songs) /\
    exists encoded,
      utf8_encode (lit "Hi") = Ok encoded /\
      length songs = length encoded /\
      (length (lit "Hi") <= length songs <= 4 * length (lit "Hi"))%nat /\
      Forall (from_dataset example_dataset) songs /\
      rand_pos w' = (rand_pos fresh_world + length songs)%nat.
Proof.
  eexists _, _. split; [vm_compute; reflexivity |].
  eapply (hex_encoding_one_song_per_byte example_draws example_dataset (lit "Hi")
            5 8 fresh_world).
  vm_compute. reflexivity.
Defined.

(** A message with a byte the dataset has no record for: the encoding
    raises after one draw, the cache file and the search log untouched. *)
Lemma hex_encoding_leaves_cache_and_log_witness :
  exists w' r,
    get_hex_encoding_songs example_draws example_dataset (lit "Ha") 5 8
      example_cache_world = (w', r) /\
    cache_file w' = cache_file example_cache_world /\
    search_log w' = search_log example_cache_world.
Proof.
  eexists _, _. split; [vm_compute; reflexivity |].
  eapply (hex_encoding_leaves_cache_and_log example_draws example_dataset
            (lit "Ha") 5 8 example_cache_world).
  vm_compute. reflexivity.
Defined.

(** With both indices 5, the message [3] (byte 33) is encoded by a record
    whose identifier has [3] there. *)
Lemma hex_encoding_equal_indices_witness :
  exists w' songs,
    get_hex_encoding_songs example_draws
      [mkRow (lit "4uLU63MCjMI75M1A2tKUQC") (lit "Third")] (lit "3") 5 5
      fresh_world = (w', Ok songs) /\
    Forall (fun b => b / 16 = b mod 16) [51].
Proof.
  eexists _, _. split; [vm_compute; reflexivity |].
  eapply (hex_encoding_equal_indices example_draws
            [mkRow (lit "4uLU63MCjMI75M1A2tKUQC") (lit "Third")] (lit "3") 5
            fresh_world);
    [vm_compute; reflexivity | reflexivity].
Defined.

(** The default URL. *)
Lemma playlist_id_of_url_witness :
  playlist_id_of default_playlist_url = Ok (lit "1qowu2b1APBPmn1kR8Ffju").
Proof.
  apply (playlist_id_of_url (lit "https://open.spotify.com/playlist")
           (lit "1qowu2b1APBPmn1kR8Ffju") (lit "?si=ae2dab6cbc1b4fda"));
    [reflexivity | reflexivity |].
  right. exists (lit "si=ae2dab6cbc1b4fda"). split; reflexivity.
Defined.

Lemma get_message_entered_witness :
  get_message [lit "   "; []; lit " Go now "; lit "1"]
  = Entered (lit " Go now ") [lit "1"] /\
  split (lit " Go now ") <> [] /\
  get_message [lit "   "; []] = EOFError.
Proof.
  destruct (get_message_entered [lit "   "; []; lit " Go now "; lit "1"])
    as [Hentered _].
  destruct (Hentered (lit " Go now ") [lit "1"] eq_refl) as [Hwords _].
  destruct (get_message_entered [lit "   "; []]) as [_ Heof].
  split; [reflexivity |]. split; [exact Hwords |].
  apply Heof. repeat constructor.
Defined.

Lemma get_playlist_url_entered_witness :
  get_playlist_url
    [lit "spotify:playlist:abc"; lit " https://open.spotify.com/playlist/abc "]
  = Entered (lit "https://open.spotify.com/playlist/abc") [] /\
  startswith (lit "https://open.spotify.com/playlist/abc") playlist_url_prefix
  = true.
Proof.
  split; [reflexivity |].
  apply (get_playlist_url_entered
           [lit "spotify:playlist:abc"; lit " https://open.spotify.com/playlist/abc "]
           [] (lit "https://open.spotify.com/playlist/abc")).
  reflexivity.
Defined.

Lemma prompted_index_in_range_witness :
  get_first_index ascii_isdigit ascii_int [lit "22"; lit "x"; lit "21"; lit "3"]
  = Entered 21 [lit "3"] /\
  0 <= 21 <= 21.
Proof.
  split; [reflexivity |].
  apply (prompted_index_in_range ascii_isdigit ascii_int
           [lit "22"; lit "x"; lit "21"; lit "3"] [lit "3"] 21).
  left. reflexivity.
Defined.


(** A blank line for the default playlist, a blank line the message
    prompt passes over, the message [Hi], the Hex scheme and the default
    indices. *)
Lemma sender_finished_published_witness :
  exists w' r,
    sender_main example_draws example_search ascii_lower example_dataset
      ascii_isdigit ascii_int [[]; lit "  "; lit "Hi"; lit " 2 "; []; []]
      fresh_world = (w', Finished r) /\
    exists playlist_url stdin1 playlist_id message stdin2 encoding stdin3 songs,
      get_playlist_url [[]; lit "  "; lit "Hi"; lit " 2 "; []; []]
      = Entered playlist_url stdin1 /\
      playlist_id_of playlist_url = Ok playlist_id /\
      get_message stdin1 = Entered message stdin2 /\
      get_encoding_method stdin2 = Entered encoding stdin3 /\
      r = Some (playlist_id, map track_id songs) /\
      songs <> [] /\
      ((encoding = lit "1" /\
        get_first_word_encoding_songs example_draws example_search ascii_lower
          message fresh_world = (w', Ok songs) /\
        length songs = length (split message)) \/
       (encoding = lit "2" /\
        exists first_index stdin4 second_index stdin5 encoded,
          get_first_index ascii_isdigit ascii_int stdin3
          = Entered first_index stdin4 /\
          get_second_index ascii_isdigit ascii_int stdin4
          = Entered second_index stdin5 /\
          0 <= first_index <= 21 /\ 0 <= second_index <= 21 /\
          get_hex_encoding_songs example_draws example_dataset message
            first_index second_index fresh_world = (w', Ok songs) /\
          utf8_encode message = Ok encoded /\
          length songs = length encoded)).
Proof.
  eexists _, _. split; [vm_compute; reflexivity |].
  eapply (sender_finished_published example_draws example_search ascii_lower
            example_dataset ascii_isdigit ascii_int
            [[]; lit "  "; lit "Hi"; lit " 2 "; []; []] fresh_world).
  vm_compute. reflexivity.
Defined.

(** [Ha] at the indices 5 and 8: the example dataset has a record for 48
    and none for 61. *)
Lemma hex_encoding_all_or_nothing_witness :
  exists w',
    get_hex_encoding_songs example_draws example_dataset (lit "Ha") 5 8
      fresh_world = (w', Raise (ResolutionFailureByte (lit "61"))).
Proof.
  assert (Hlong : Forall (fun row => Z.max (Z.of_nat 5) (Z.of_nat 8)
                                     < len (row_track_id row)) example_dataset)
    by (repeat constructor).
  destruct (hex_encoding_all_or_nothing example_draws example_dataset (lit "Ha")
              [72; 97] 5 8 fresh_world Hlong eq_refl) as [_ Hfail].
  exact (Hfail [72] 97 [] eq_refl eq_refl eq_refl).
Defined.

(** [Go zzz now]: the second word matches neither track of the catalog. *)
Lemma first_word_encoding_not_found_witness :
  exists w2,
    get_first_word_encoding_songs example_draws example_search ascii_lower
      (lit "Go zzz now") fresh_world
    = (w2, Raise (ResolutionFailureWord (lit "zzz"))).
Proof.
  eexists.
  eapply (first_word_encoding_not_found example_draws example_search ascii_lower
            (lit "Go zzz now") [lit "Go"] [lit "now"] (lit "zzz")).
  - reflexivity.
  - eapply resolver_run_cons; [vm_compute; reflexivity | apply resolver_run_nil].
  - vm_compute. reflexivity.
Defined.

(** A catalog answer in which the second track is named with one space. *)
Lemma resolver_blank_search_result_witness :
  get_song_from_first_word example_draws
    (fun _ _ => Some [go_get_it; mkSong (lit "6rqhFgbbKwnb9MLmUQDhG6") [32] []])
    ascii_lower (lit "Go") fresh_world
  = (logged fresh_world (quoted (lit "Go")), Raise IndexError).
Proof.
  apply (resolver_blank_search_result example_draws
           (fun _ _ => Some [go_get_it; mkSong (lit "6rqhFgbbKwnb9MLmUQDhG6") [32] []])
           ascii_lower (lit "Go") (lit "Go")
           [go_get_it; mkSong (lit "6rqhFgbbKwnb9MLmUQDhG6") [32] []] fresh_world).
  - reflexivity.
  - split; [reflexivity | left; reflexivity].
  - reflexivity.
  - apply Exists_cons_tl, Exists_cons_hd. reflexivity.
Defined.
